(** * telegraf-solaris: configuration loading, plugin registry, duration and
      value parsing

    A shallow embedding of [config.go] (configuration loader, plugin
    registries, [Duration.UnmarshalTOML]) and of the value parser
    ([ValueParser.Parse]), together with models of the Go standard-library
    functions they call, and the properties proved about them.

    Go strings and byte slices are both sequences of bytes: they are
    embedded as [list ascii], so that [string(b)] and [[]byte(s)] are the
    identity.  Machine integers are embedded as [Z] with the wrap-around
    written out, [float64] as the standard library's [spec_float] at
    precision 53.

    The functions of the Go standard library are modelled after their
    sources (Go 1.13 and later, where [strconv.ParseFloat] reads
    hexadecimal floats and underscores between digits), a function with
    an error result returning Go's pair of a value and an error.  What
    the repository leaves outside the shown files (the [toml] package, the
    metric constructor [New], the single-file loader's collaborators) is
    a variable of the section that uses it. *)

From Stdlib Require Import ZArith List Ascii String Lia Bool.
From Stdlib Require Import Floats.SpecFloat.
From stdpp Require Import base list gmap strings sorting.

Set Warnings "-register-all".
Local Open Scope Z_scope.

Abbreviation gostring := (list ascii).

(** A Go string literal. *)
Definition lit (s : string) : gostring := list_ascii_of_string s.

(** ** Bytes *)

Definition code (c : ascii) : Z := Z.of_N (N_of_ascii c).
Definition byte_of (z : Z) : ascii := ascii_of_N (Z.to_N z).
Definition between (lo : Z) (c : ascii) (hi : Z) : bool :=
  (lo <=? code c) && (code c <=? hi).
Definition isByte (c : ascii) (z : Z) : bool := code c =? z.
Definition isDigit (c : ascii) : bool := between 48 c 57.
(** [lower(c) = c | ('x' - 'X')] of package strconv. *)
Definition lower (c : ascii) : ascii := byte_of (Z.lor (code c) 32).

(** Go's [error] values.  [nil] is [None] at type [option error]. *)
Inductive error : Type :=
| ErrSyntax (fn : string) (num : gostring)    (* strconv.NumError, ErrSyntax *)
| ErrRange (fn : string) (num : gostring)     (* strconv.NumError, ErrRange *)
| ErrUnquote                                  (* strconv.ErrSyntax *)
| ErrDuration (msg : string) (orig : gostring) (* errors.New("time: ...") *)
| Errorf (msg : gostring).                    (* fmt.Errorf / errors.New *)

(** Fixed-width integers. *)
Definition wrap_uint64 (z : Z) : Z := z mod 2 ^ 64.
Definition wrap_int64 (z : Z) : Z := (z + 2 ^ 63) mod 2 ^ 64 - 2 ^ 63.

(** ** float64 *)

Module f64.
Definition prec : Z := 53.
Definition emax : Z := 1024.
Definition mul : spec_float -> spec_float -> spec_float := SFmul prec emax.
Definition div : spec_float -> spec_float -> spec_float := SFdiv prec emax.
(** Conversion of an integer, rounding to nearest even. *)
Definition of_Z (z : Z) : spec_float := binary_normalize prec emax z 0 false.
(** The integer part of a finite value, truncated towards zero. *)
Definition trunc (x : spec_float) : option Z :=
  match x with
  | S754_zero _ => Some 0
  | S754_finite s m e =>
      Some (cond_Zopp s (if 0 <=? e then Zpos m * 2 ^ e
                         else Zpos m / 2 ^ (- e)))
  | _ => None
  end.
(** [int64(x)]: truncation towards zero; a value that does not fit
    (or NaN) converts to the "integer indefinite" value [-2^63], as the
    amd64 conversion instruction that Go emits does (the only
    architecture Go supports on Solaris). *)
Definition to_int64 (x : spec_float) : Z :=
  match trunc x with
  | Some z => if (- 2 ^ 63 <=? z) && (z <? 2 ^ 63) then z else - 2 ^ 63
  | None => - 2 ^ 63
  end.
(** [uint64(x)] for the values [time.ParseDuration] converts, which lie
    in [0, 2^63). *)
Definition to_uint64 (x : spec_float) : Z := wrap_uint64 (to_int64 x).
End f64.

(** ** Package unicode/utf8 *)

Module utf8.
Definition RuneError : Z := 65533.
Definition RuneSelf : Z := 128.

(** [DecodeRune p]: the first rune of [p] and its width in bytes;
    [(RuneError, 1)] on an invalid encoding, [(RuneError, 0)] on empty
    input. *)
Definition DecodeRune (p : gostring) : Z * nat :=
  match p with
  | [] => (RuneError, 0%nat)
  | c0 :: p1 =>
      let b0 := code c0 in
      if b0 <? 128 then (b0, 1%nat)
      else if (194 <=? b0) && (b0 <=? 223) then
        match p1 with
        | c1 :: _ =>
            if between 128 c1 191
            then ((b0 mod 32) * 64 + code c1 mod 64, 2%nat)
            else (RuneError, 1%nat)
        | _ => (RuneError, 1%nat)
        end
      else if (224 <=? b0) && (b0 <=? 239) then
        let lo := if b0 =? 224 then 160 else 128 in
        let hi := if b0 =? 237 then 159 else 191 in
        match p1 with
        | c1 :: c2 :: _ =>
            if between lo c1 hi && between 128 c2 191
            then ((b0 mod 16) * 4096 + (code c1 mod 64) * 64
                  + code c2 mod 64, 3%nat)
            else (RuneError, 1%nat)
        | _ => (RuneError, 1%nat)
        end
      else if (240 <=? b0) && (b0 <=? 244) then
        let lo := if b0 =? 240 then 144 else 128 in
        let hi := if b0 =? 244 then 143 else 191 in
        match p1 with
        | c1 :: c2 :: c3 :: _ =>
            if between lo c1 hi && between 128 c2 191 && between 128 c3 191
            then ((b0 mod 8) * 262144 + (code c1 mod 64) * 4096
                  + (code c2 mod 64) * 64 + code c3 mod 64, 4%nat)
            else (RuneError, 1%nat)
        | _ => (RuneError, 1%nat)
        end
      else (RuneError, 1%nat)
  end.

(** [RuneStart b]: [b] is not a continuation byte. *)
Definition RuneStart (c : ascii) : bool := negb (Z.land (code c) 192 =? 128).

(** [DecodeLastRune p], on the reversed input [rp = rev p].  The Go code
    looks for a rune start among the three bytes before the last one and
    decodes from there; the decoding must end exactly at the end of
    [p]. *)
Definition DecodeLastRune_rev (rp : gostring) : Z * nat :=
  match rp with
  | [] => (RuneError, 0%nat)
  | c :: _ =>
      if code c <? 128 then (code c, 1%nat)
      else
        let try (k : nat) :=
          let '(r, size) := DecodeRune (rev (take (S k) rp)) in
          if Nat.eqb size (S k) then (r, size) else (RuneError, 1%nat) in
        match rp with
        | _ :: c1 :: rest =>
            if RuneStart c1 then try 1%nat
            else match rest with
                 | c2 :: rest' =>
                     if RuneStart c2 then try 2%nat
                     else match rest' with
                          | c3 :: _ =>
                              if RuneStart c3 then try 3%nat
                              else (RuneError, 1%nat)
                          | [] => (RuneError, 1%nat)
                          end
                 | [] => (RuneError, 1%nat)
                 end
        | _ => (RuneError, 1%nat)
        end
  end.

Definition ValidRune (r : Z) : bool :=
  ((0 <=? r) && (r <? 55296)) || ((57343 <? r) && (r <=? 1114111)).

(** [AppendRune nil r]. *)
Definition EncodeRune (r : Z) : gostring :=
  let r := if ValidRune r then r else RuneError in
  if r <=? 127 then [byte_of r]
  else if r <=? 2047 then [byte_of (192 + r / 64); byte_of (128 + r mod 64)]
  else if r <=? 65535 then
    [byte_of (224 + r / 4096); byte_of (128 + (r / 64) mod 64);
     byte_of (128 + r mod 64)]
  else
    [byte_of (240 + r / 262144); byte_of (128 + (r / 4096) mod 64);
     byte_of (128 + (r / 64) mod 64); byte_of (128 + r mod 64)].

(** The runes of a string with the bytes each one occupies, as
    [for _, r := range s] enumerates them: [skip] counts the bytes of
    the current rune still to pass over. *)
Fixpoint runes (skip : nat) (p : gostring) : list (Z * gostring) :=
  match p with
  | [] => []
  | _ :: p' =>
      match skip with
      | S k => runes k p'
      | O => let '(r, w) := DecodeRune p in (r, take w p) :: runes (pred w) p'
      end
  end.

(** [ValidString s]: no rune of [s] is an encoding error (a decoded
    [RuneError] of width 1). *)
Definition ValidString (s : gostring) : bool :=
  forallb (fun rb => negb ((fst rb =? RuneError) && Nat.eqb (length (snd rb)) 1))
          (runes 0 s).
End utf8.

(** ** Package unicode *)

Module unicode.
Definition IsSpace (r : Z) : bool :=
  if r <=? 255 then
    ((9 <=? r) && (r <=? 13)) || (r =? 32) || (r =? 133) || (r =? 160)
  else
    (r =? 5760) || ((8192 <=? r) && (r <=? 8202)) || (r =? 8232)
    || (r =? 8233) || (r =? 8239) || (r =? 8287) || (r =? 12288).
End unicode.

(** ** Packages bytes and strings *)

Module bytes.
Fixpoint trimLeftByte (s : gostring) (c : ascii) : gostring :=
  match s with
  | x :: s' => if Ascii.eqb x c then trimLeftByte s' c else s
  | [] => []
  end.
Definition trimRightByte (s : gostring) (c : ascii) : gostring :=
  rev (trimLeftByte (rev s) c).
(** [Trim s cutset] for a cutset of one ASCII byte. *)
Definition Trim (s : gostring) (c : ascii) : gostring :=
  trimLeftByte (trimRightByte s c) c.

Fixpoint trimLeftFunc (fuel : nat) (f : Z -> bool) (s : gostring) : gostring :=
  match fuel with
  | O => s
  | S fuel' =>
      match s with
      | [] => []
      | _ => let '(r, w) := utf8.DecodeRune s in
             if f r then trimLeftFunc fuel' f (drop w s) else s
      end
  end.
Definition TrimLeftFunc (s : gostring) (f : Z -> bool) : gostring :=
  trimLeftFunc (length s) f s.

(** [TrimRightFunc], on the reversed input. *)
Fixpoint trimRightFunc_rev (fuel : nat) (f : Z -> bool) (rs : gostring) : gostring :=
  match fuel with
  | O => rs
  | S fuel' =>
      match rs with
      | [] => []
      | _ => let '(r, w) := utf8.DecodeLastRune_rev rs in
             if f r then trimRightFunc_rev fuel' f (drop w rs) else rs
      end
  end.
Definition TrimRightFunc (s : gostring) (f : Z -> bool) : gostring :=
  rev (trimRightFunc_rev (length s) f (rev s)).

Definition TrimFunc (s : gostring) (f : Z -> bool) : gostring :=
  TrimRightFunc (TrimLeftFunc s f) f.

(** [TrimSpace s]: [s] without leading and trailing white space, as
    defined by Unicode. *)
Definition TrimSpace (s : gostring) : gostring := TrimFunc s unicode.IsSpace.

Fixpoint HasPrefix (s prefix : gostring) {struct prefix} : bool :=
  match prefix, s with
  | [], _ => true
  | p :: prefix', x :: s' => Ascii.eqb x p && HasPrefix s' prefix'
  | _ :: _, [] => false
  end.

Definition TrimPrefix (s prefix : gostring) : gostring :=
  if HasPrefix s prefix then drop (length prefix) s else s.

(** [Replace s old new 1] for a non-empty [old]: the first occurrence
    of [old] in [s] is replaced by [new]. *)
Fixpoint ReplaceFirst (s old new : gostring) : gostring :=
  if HasPrefix s old then new ++ drop (length old) s
  else match s with
       | [] => []
       | x :: s' => x :: ReplaceFirst s' old new
       end.
End bytes.

Module strings.
Definition TrimPrefix := bytes.TrimPrefix.

Fixpoint fieldsRunes (cur : gostring) (rs : list (Z * gostring)) : list gostring :=
  match rs with
  | [] => match cur with [] => [] | _ => [cur] end
  | (r, bs) :: rs' =>
      if unicode.IsSpace r
      then match cur with
           | [] => fieldsRunes [] rs'
           | _ => cur :: fieldsRunes [] rs'
           end
      else fieldsRunes (cur ++ bs) rs'
  end.
(** [Fields s]: the maximal substrings of [s] free of white space. *)
Definition Fields (s : gostring) : list gostring :=
  fieldsRunes [] (utf8.runes 0 s).

Fixpoint Join (elems : list gostring) (sep : gostring) : gostring :=
  match elems with
  | [] => []
  | [e] => e
  | e :: rest => e ++ sep ++ Join rest sep
  end.
End strings.

(** ** Package strconv *)

Module strconv.

(** *** Integers *)

(** The digit loop of [ParseUint s 10 64], returning Go's pair of a
    value and an error. *)
Fixpoint parseUintLoop (s0 : gostring) (n : Z) (s : gostring) : Z * option error :=
  match s with
  | [] => (n, None)
  | c :: s' =>
      if negb (isDigit c) then (0, Some (ErrSyntax "ParseUint" s0))
      else
        let d := code c - 48 in
        (* cutoff = maxUint64/10 + 1 *)
        if n >=? (2 ^ 64 - 1) / 10 + 1 then (2 ^ 64 - 1, Some (ErrRange "ParseUint" s0))
        else
          let n1 := n * 10 + d in
          if n1 >? 2 ^ 64 - 1 then (2 ^ 64 - 1, Some (ErrRange "ParseUint" s0))
          else parseUintLoop s0 n1 s'
  end.

Definition ParseUint10 (s : gostring) : Z * option error :=
  match s with
  | [] => (0, Some (ErrSyntax "ParseUint" s))
  | _ => parseUintLoop s 0 s
  end.

(** [ParseInt s 10 64]. *)
Definition ParseInt10 (s : gostring) : Z * option error :=
  match s with
  | [] => (0, Some (ErrSyntax "ParseInt" s))
  | c :: s' =>
      let neg := isByte c 45 in
      let body := if isByte c 43 || isByte c 45 then s' else s in
      match ParseUint10 body with
      | (_, Some (ErrRange _ _)) =>
          if neg then (- 2 ^ 63, Some (ErrRange "ParseInt" s))
          else (2 ^ 63 - 1, Some (ErrRange "ParseInt" s))
      | (_, Some _) => (0, Some (ErrSyntax "ParseInt" s))
      | (un, None) =>
          let cutoff := 2 ^ 63 in
          if negb neg && (un >=? cutoff) then (cutoff - 1, Some (ErrRange "ParseInt" s))
          else if neg && (un >? cutoff) then (- cutoff, Some (ErrRange "ParseInt" s))
          else (if neg then - un else un, None)
      end
  end.

(** [Atoi s] is [ParseInt s 10 0] with [int] of 64 bits, the errors
    naming [Atoi]. *)
Definition Atoi (s : gostring) : Z * option error :=
  match ParseInt10 s with
  | (n, Some (ErrRange _ num)) => (n, Some (ErrRange "Atoi" num))
  | (n, Some (ErrSyntax _ num)) => (n, Some (ErrSyntax "Atoi" num))
  | r => r
  end.

(** *** Booleans *)

Definition ParseBool (str : gostring) : bool * option error :=
  if existsb (fun l => if decide (str = lit l) then true else false)
       ["1"; "t"; "T"; "TRUE"; "true"; "True"]%string
  then (true, None)
  else if existsb (fun l => if decide (str = lit l) then true else false)
       ["0"; "f"; "F"; "FALSE"; "false"; "False"]%string
  then (false, None)
  else (false, Some (ErrSyntax "ParseBool" str)).

(** *** Quoted strings *)

Definition unhex (c : ascii) : option Z :=
  if between 48 c 57 then Some (code c - 48)
  else if between 97 c 102 then Some (code c - 97 + 10)
  else if between 65 c 70 then Some (code c - 65 + 10)
  else None.

Fixpoint hexDigits (n : nat) (v : Z) (s : gostring) : option (Z * gostring) :=
  match n with
  | O => Some (v, s)
  | S n' =>
      match s with
      | c :: s' =>
          match unhex c with
          | Some x => hexDigits n' (v * 16 + x) s'
          | None => None
          end
      | [] => None
      end
  end.

(** [UnquoteChar s quote]: the value, whether it is a multi-byte rune,
    and the rest of the string; [None] is [ErrSyntax]. *)
Definition UnquoteChar (s : gostring) (quote : ascii) : option (Z * bool * gostring) :=
  match s with
  | [] => None
  | c :: s1 =>
      if Ascii.eqb c quote && (isByte quote 39 || isByte quote 34) then None
      else if code c >=? utf8.RuneSelf then
        let '(r, size) := utf8.DecodeRune s in Some (r, true, drop size s)
      else if negb (isByte c 92) then Some (code c, false, s1)
      else
        match s1 with
        | [] => None
        | e :: s2 =>
            let k := code e in
            if k =? 97 then Some (7, false, s2)        (* \a *)
            else if k =? 98 then Some (8, false, s2)   (* \b *)
            else if k =? 102 then Some (12, false, s2) (* \f *)
            else if k =? 110 then Some (10, false, s2) (* \n *)
            else if k =? 114 then Some (13, false, s2) (* \r *)
            else if k =? 116 then Some (9, false, s2)  (* \t *)
            else if k =? 118 then Some (11, false, s2) (* \v *)
            else if (k =? 120) || (k =? 117) || (k =? 85) then
              let n := if k =? 120 then 2%nat else if k =? 117 then 4%nat else 8%nat in
              match hexDigits n 0 s2 with
              | None => None
              | Some (v, s3) =>
                  if k =? 120 then Some (v, false, s3)
                  else if utf8.ValidRune v then Some (v, true, s3)
                  else None
              end
            else if between 48 e 55 then
              match s2 with
              | o1 :: o2 :: s3 =>
                  if between 48 o1 55 && between 48 o2 55 then
                    let v := ((k - 48) * 8 + (code o1 - 48)) * 8 + (code o2 - 48) in
                    if v >? 255 then None else Some (v, false, s3)
                  else None
              | _ => None
              end
            else if k =? 92 then Some (92, false, s2)
            else if (k =? 39) || (k =? 34) then
              if Ascii.eqb e quote then Some (k, false, s2) else None
            else None
        end
  end.

Definition contains (s : gostring) (z : Z) : bool := existsb (fun c => isByte c z) s.

(** The decoding loop of [Unquote]; every call of [UnquoteChar] that
    succeeds consumes at least one byte, so [length s] is fuel enough. *)
Fixpoint unquoteLoop (fuel : nat) (quote : ascii) (buf s : gostring) : option gostring :=
  match s with
  | [] => Some buf
  | _ =>
      match fuel with
      | O => None
      | S fuel' =>
          match UnquoteChar s quote with
          | None => None
          | Some (c, multibyte, ss) =>
              let buf' := if (c <? utf8.RuneSelf) || negb multibyte
                          then buf ++ [byte_of c]
                          else buf ++ utf8.EncodeRune c in
              if isByte quote 39 && negb (Nat.eqb (length ss) 0) then None
              else unquoteLoop fuel' quote buf' ss
          end
      end
  end.

(** [Unquote s]: [s] read as a Go string or character literal. *)
Definition Unquote (s : gostring) : gostring * option error :=
  match s with
  | quote :: rest =>
      match rev rest with
      | last :: rbody =>
          if negb (Ascii.eqb quote last) then ([], Some ErrUnquote)
          else
            let body := rev rbody in
            if isByte quote 96 then
              if contains body 96 then ([], Some ErrUnquote)
              else (List.filter (fun c => negb (isByte c 13)) body, None)
            else if negb (isByte quote 34) && negb (isByte quote 39) then ([], Some ErrUnquote)
            else if contains body 10 then ([], Some ErrUnquote)
            else
              let trivial :=
                negb (contains body 92) && negb (existsb (Ascii.eqb quote) body)
                && (if isByte quote 34 then utf8.ValidString body
                    else let '(r, size) := utf8.DecodeRune body in
                         Nat.eqb size (length body)
                         && negb ((r =? utf8.RuneError) && Nat.eqb size 1)) in
              if trivial then (body, None)
              else match unquoteLoop (length body) quote [] body with
                   | Some buf => (buf, None)
                   | None => ([], Some ErrUnquote)
                   end
      | [] => ([], Some ErrUnquote)
      end
  | [] => ([], Some ErrUnquote)
  end.

(** *** Floating point *)

(** [c], with an ASCII capital replaced by its small letter. *)
Definition toLowerASCII (c : ascii) : ascii :=
  if between 65 c 90 then byte_of (code c + 32) else c.

Fixpoint commonPrefixLenIgnoreCase (s prefix : gostring) : nat :=
  match s, prefix with
  | c :: s', p :: prefix' =>
      if Ascii.eqb (toLowerASCII c) p
      then S (commonPrefixLenIgnoreCase s' prefix')
      else O
  | _, _ => O
  end.

(** [special s]: the spellings of infinity and NaN, with the number of
    bytes read. *)
Definition special (s : gostring) : option (spec_float * nat) :=
  let inf (neg : bool) (nsign : nat) (s : gostring) :=
    let n := commonPrefixLenIgnoreCase s (lit "infinity") in
    let n := if Nat.ltb 3 n && Nat.ltb n 8 then 3%nat else n in
    if Nat.eqb n 3 || Nat.eqb n 8
    then Some (S754_infinity neg, (nsign + n)%nat) else None in
  match s with
  | [] => None
  | c :: s' =>
      if isByte c 43 || isByte c 45 then inf (isByte c 45) 1%nat s'
      else if isByte c 105 || isByte c 73 then inf false 0%nat s
      else if isByte c 110 || isByte c 78 then
        if Nat.eqb (commonPrefixLenIgnoreCase s (lit "nan")) 3
        then Some (S754_nan, 3%nat) else None
      else None
  end.

(** The variables of [readFloat]; [digits] collects every significant
    digit, where [mantissa] keeps the first [maxMantDigits] only. *)
Record floatScan : Type := FloatScan {
  sawdot : bool; sawdigits : bool; nd : Z; ndMant : Z; dp : Z;
  mantissa : Z; trunc : bool; underscores : bool; digits : Z }.

Definition addDigit (hex : bool) (st : floatScan) (d : Z) (zero : bool) : floatScan :=
  let base := if hex then 16 else 10 in
  let maxMantDigits := if hex then 16 else 19 in
  let fits := ndMant st <? maxMantDigits in
  FloatScan (sawdot st) true (nd st + 1)
    (if fits then ndMant st + 1 else ndMant st) (dp st)
    (if fits then mantissa st * base + d else mantissa st)
    (if fits then trunc st else if zero then trunc st else true)
    (underscores st) (digits st * base + d).

Fixpoint mantissaLoop (hex : bool) (st : floatScan) (s : gostring) : floatScan * gostring :=
  match s with
  | [] => (st, [])
  | c :: s' =>
      if isByte c 95 then
        mantissaLoop hex
          (FloatScan (sawdot st) (sawdigits st) (nd st) (ndMant st) (dp st)
             (mantissa st) (trunc st) true (digits st)) s'
      else if isByte c 46 then
        if sawdot st then (st, s)
        else mantissaLoop hex
               (FloatScan true (sawdigits st) (nd st) (ndMant st) (nd st)
                  (mantissa st) (trunc st) (underscores st) (digits st)) s'
      else if isDigit c then
        if isByte c 48 && (nd st =? 0) then
          mantissaLoop hex
            (FloatScan (sawdot st) true (nd st) (ndMant st) (dp st - 1)
               (mantissa st) (trunc st) (underscores st) (digits st)) s'
        else mantissaLoop hex (addDigit hex st (code c - 48) (isByte c 48)) s'
      else if hex && between 97 (lower c) 102 then
        mantissaLoop hex (addDigit hex st (code (lower c) - 97 + 10) false) s'
      else (st, s)
  end.

(** The digits of the exponent; past 10000 further digits are dropped. *)
Fixpoint exponentLoop (e : Z) (us : bool) (s : gostring) : Z * bool * gostring :=
  match s with
  | c :: s' =>
      if isByte c 95 then exponentLoop e true s'
      else if isDigit c
      then exponentLoop (if e <? 10000 then e * 10 + code c - 48 else e) us s'
      else (e, us, s)
  | [] => (e, us, [])
  end.

(** [underscoreOK s]: every underscore of [s] separates two digits (or
    the base prefix and a digit).  [last] is the kind of the previous
    byte: 48 for a digit, 95 for an underscore, 33 for anything else,
    94 at the beginning. *)
Fixpoint underscoreLoop (hex : bool) (last : Z) (s : gostring) : bool :=
  match s with
  | [] => negb (last =? 95)
  | c :: s' =>
      if isDigit c || (hex && between 97 (lower c) 102) then underscoreLoop hex 48 s'
      else if isByte c 95 then
        if negb (last =? 48) then false else underscoreLoop hex 95 s'
      else if last =? 95 then false
      else underscoreLoop hex 33 s'
  end.

Definition underscoreOK (s : gostring) : bool :=
  let s := match s with
           | c :: s' => if isByte c 45 || isByte c 43 then s' else s
           | [] => s
           end in
  match s with
  | z :: x :: s' =>
      if isByte z 48 && (isByte (lower x) 98 || isByte (lower x) 111 || isByte (lower x) 120)
      then underscoreLoop (isByte (lower x) 120) 48 s'
      else underscoreLoop false 94 s
  | _ => underscoreLoop false 94 s
  end.

(** The outcome of [readFloat]: sign, base, the scanned mantissa, the
    position of the point after the exponent was applied, and the bytes
    left unread. *)
Definition readFloat (s : gostring) : option (bool * bool * floatScan * Z * gostring) :=
  match s with
  | [] => None
  | c :: s' =>
      let neg := isByte c 45 in
      let s1 := if isByte c 43 || isByte c 45 then s' else s in
      let '(hex, s2) :=
        match s1 with
        | z :: x :: s2 =>
            match s2 with
            | _ :: _ =>
                if isByte z 48 && isByte (lower x) 120 then (true, s2) else (false, s1)
            | [] => (false, s1)
            end
        | _ => (false, s1)
        end in
      let '(st, s3) :=
        mantissaLoop hex (FloatScan false false 0 0 0 0 false false 0) s2 in
      if negb (sawdigits st) then None
      else
        let dp0 := if sawdot st then dp st else nd st in
        let dp1 := if hex then dp0 * 4 else dp0 in
        let expChar := if hex then 112 else 101 in
        let finish (dp2 : Z) (us : bool) (rest : gostring) :=
          let consumed := take (length s - length rest) s in
          if us && negb (underscoreOK consumed) then None
          else Some (neg, hex, st, dp2, rest) in
        match s3 with
        | ec :: s4 =>
            if isByte (lower ec) expChar then
              match s4 with
              | [] => None
              | sc :: s5 =>
                  let esign := if isByte sc 45 then -1 else 1 in
                  let s6 := if isByte sc 43 || isByte sc 45 then s5 else s4 in
                  match s6 with
                  | d :: _ =>
                      if isDigit d then
                        let '(e, us, rest) := exponentLoop 0 (underscores st) s6 in
                        finish (dp1 + e * esign) us rest
                      else None
                  | [] => None
                  end
              end
            else if hex then None
            else finish dp1 (underscores st) s3
        | [] => if hex then None else finish dp1 (underscores st) s3
        end
  end.

(** The float64 nearest to [m * 10^e10] ([m > 0]), ties to even. *)
Definition roundDecimal (neg : bool) (m : Z) (e10 : Z) : spec_float :=
  if 0 <=? e10 then binary_normalize f64.prec f64.emax (cond_Zopp neg (m * 10 ^ e10)) 0 neg
  else
    let '(q, e, l) := SFdiv_core_binary f64.prec f64.emax m 0 (10 ^ (- e10)) 0 in
    binary_round_aux f64.prec f64.emax neg q e l.

(** The float64 nearest to [m * 2^e2] when [sticky] is unset, to a value
    just above it when it is set (then [m] has its sixteen hexadecimal
    digits, more than the precision). *)
Definition roundBinary (neg : bool) (m : Z) (e2 : Z) (sticky : bool) : spec_float :=
  if sticky then binary_round_aux f64.prec f64.emax neg m e2 (loc_Inexact Lt)
  else binary_normalize f64.prec f64.emax (cond_Zopp neg m) e2 neg.

(** [ParseFloat s 64]: the nearest float64, rounded to even; a value
    out of range is an infinity with [ErrRange]. *)
Definition ParseFloat64 (s : gostring) : spec_float * option error :=
  let syntax := (S754_zero false, Some (ErrSyntax "ParseFloat" s)) in
  match special s with
  | Some (f, n) => if Nat.eqb n (length s) then (f, None) else syntax
  | None =>
      match readFloat s with
      | None => syntax
      | Some (neg, hex, st, dp2, rest) =>
          match rest with
          | _ :: _ => syntax
          | [] =>
              let f :=
                if hex then
                  if mantissa st =? 0 then S754_zero neg
                  else roundBinary neg (mantissa st) (dp2 - ndMant st * 4) (trunc st)
                else
                  if digits st =? 0 then S754_zero neg
                  else roundDecimal neg (digits st) (dp2 - nd st) in
              match f with
              | S754_infinity _ => (f, Some (ErrRange "ParseFloat" s))
              | _ => (f, None)
              end
          end
      end
  end.
End strconv.

(** ** Package time *)

Module time.
Definition Nanosecond : Z := 1.
Definition Microsecond : Z := 1000 * Nanosecond.
Definition Millisecond : Z := 1000 * Microsecond.
Definition Second : Z := 1000 * Millisecond.
Definition Minute : Z := 60 * Second.
Definition Hour : Z := 60 * Minute.

Definition unitMap (u : gostring) : option Z :=
  if decide (u = lit "ns") then Some Nanosecond
  else if decide (u = lit "us") then Some Microsecond
  else if decide (u = byte_of 194 :: byte_of 181 :: lit "s") then Some Microsecond
  else if decide (u = byte_of 206 :: byte_of 188 :: lit "s") then Some Microsecond
  else if decide (u = lit "ms") then Some Millisecond
  else if decide (u = lit "s") then Some Second
  else if decide (u = lit "m") then Some Minute
  else if decide (u = lit "h") then Some Hour
  else None.

(** [leadingInt s]: the leading [[0-9]*] of [s] and the rest; [None]
    when the number passes [1<<63]. *)
Fixpoint leadingInt (x : Z) (s : gostring) : option (Z * gostring) :=
  match s with
  | c :: s' =>
      if isDigit c then
        if x >? 2 ^ 63 / 10 then None
        else
          let x' := x * 10 + code c - 48 in
          if x' >? 2 ^ 63 then None else leadingInt x' s'
      else Some (x, s)
  | [] => Some (x, s)
  end.

(** [leadingFraction s]: the leading [[0-9]*] of [s] as a numerator and
    the power of ten it is over; digits past the overflow are read and
    dropped. *)
Fixpoint leadingFraction (x : Z) (scale : spec_float) (overflow : bool)
    (s : gostring) : Z * spec_float * gostring :=
  match s with
  | c :: s' =>
      if isDigit c then
        if overflow then leadingFraction x scale true s'
        else if x >? (2 ^ 63 - 1) / 10 then leadingFraction x scale true s'
        else
          let y := x * 10 + code c - 48 in
          if y >? 2 ^ 63 then leadingFraction x scale true s'
          else leadingFraction y (f64.mul scale (f64.of_Z 10)) false s'
      else (x, scale, s)
  | [] => (x, scale, s)
  end.

Definition isUnitByte (c : ascii) : bool := negb (isByte c 46 || isDigit c).

Fixpoint unitSpan (s : gostring) : gostring * gostring :=
  match s with
  | c :: s' =>
      if isUnitByte c then let '(u, r) := unitSpan s' in (c :: u, r)
      else ([], s)
  | [] => ([], [])
  end.

Definition invalid (orig : gostring) : error := ErrDuration "time: invalid duration" orig.

(** The loop of [ParseDuration] over the groups of a number and a unit;
    [d] is the sum so far, a [uint64].  Every round reads at least two
    bytes, so [length s] is fuel enough. *)
Fixpoint parseGroups (fuel : nat) (orig : gostring) (d : Z) (s : gostring) : error + Z :=
  match s with
  | [] => inr d
  | c0 :: _ =>
      match fuel with
      | O => inl (invalid orig)
      | S fuel' =>
          if negb (isByte c0 46 || isDigit c0) then inl (invalid orig)
          else
            match leadingInt 0 s with
            | None => inl (invalid orig)
            | Some (v, s1) =>
                let pre := negb (Nat.eqb (length s) (length s1)) in
                let '(f, scale, s2, post) :=
                  match s1 with
                  | dot :: s1' =>
                      if isByte dot 46 then
                        let '(f, scale, s2) := leadingFraction 0 (f64.of_Z 1) false s1' in
                        (f, scale, s2, negb (Nat.eqb (length s1') (length s2)))
                      else (0, f64.of_Z 1, s1, false)
                  | [] => (0, f64.of_Z 1, s1, false)
                  end in
                if negb pre && negb post then inl (invalid orig)
                else
                  let '(u, s3) := unitSpan s2 in
                  match u with
                  | [] => inl (ErrDuration "time: missing unit in duration" orig)
                  | _ =>
                      match unitMap u with
                      | None => inl (ErrDuration "time: unknown unit in duration" orig)
                      | Some unit =>
                          if v >? 2 ^ 63 / unit then inl (invalid orig)
                          else
                            let v1 := v * unit in
                            let v2 :=
                              if f >? 0
                              then wrap_uint64
                                     (v1 + f64.to_uint64
                                             (f64.mul (f64.of_Z f)
                                                (f64.div (f64.of_Z unit) scale)))
                              else v1 in
                            if (f >? 0) && (v2 >? 2 ^ 63) then inl (invalid orig)
                            else
                              let d' := wrap_uint64 (d + v2) in
                              if d' >? 2 ^ 63 then inl (invalid orig)
                              else parseGroups fuel' orig d' s3
                      end
                  end
            end
      end
  end.

(** [ParseDuration s], in nanoseconds.  Every error return of the Go
    function is [return 0, errors.New(...)]. *)
Definition ParseDuration (s : gostring) : Z * option error :=
  let orig := s in
  let '(neg, s) :=
    match s with
    | c :: s' => if isByte c 45 || isByte c 43 then (isByte c 45, s') else (false, s)
    | [] => (false, s)
    end in
  if decide (s = lit "0") then (0, None)
  else
    match s with
    | [] => (0, Some (invalid orig))
    | _ =>
        match parseGroups (length s) orig 0 s with
        | inl e => (0, Some e)
        | inr d =>
            if neg then (wrap_int64 (- wrap_int64 d), None)
            else if d >? 2 ^ 63 - 1 then (0, Some (invalid orig))
            else (d, None)
        end
    end.
End time.

(** ** Packages regexp, sort, fmt and path/filepath *)

Module regexp.
(** A word character, [\w]: an ASCII letter, digit or underscore. *)
Definition isWord (c : ascii) : bool :=
  between 48 c 57 || between 65 c 90 || between 97 c 122 || isByte c 95.

(** The matches of [\$\w+], leftmost first and without overlap, as
    [FindAll contents (-1)] returns them.  [cur] is the match being
    read ([None] outside a match), beginning with its dollar sign. *)
Fixpoint findEnvVars (cur : option gostring) (s : gostring) : list gostring :=
  let flush (cur : option gostring) : list gostring :=
    match cur with
    | Some (d :: w :: tok) => [d :: w :: tok]
    | _ => []
    end in
  match s with
  | [] => flush cur
  | c :: s' =>
      match cur with
      | Some tok =>
          if isWord c then findEnvVars (Some (tok ++ [c])) s'
          else flush cur ++ findEnvVars (if isByte c 36 then Some [c] else None) s'
      | None => findEnvVars (if isByte c 36 then Some [c] else None) s'
      end
  end.
End regexp.

Module sort.
(** [s < t] on Go strings: the order of their bytes. *)
Fixpoint less (s t : gostring) : bool :=
  match s, t with
  | _, [] => false
  | [], _ :: _ => true
  | a :: s', b :: t' =>
      if code a <? code b then true
      else if code b <? code a then false
      else less s' t'
  end.

Fixpoint insert (x : gostring) (l : list gostring) : list gostring :=
  match l with
  | [] => [x]
  | y :: l' => if less y x then y :: insert x l' else x :: l
  end.

(** [Strings l]: [l] in increasing order. *)
Definition Strings (l : list gostring) : list gostring := foldr insert [] l.
End sort.

Module fmt.
(** [Sprintf "%s=%s" k v]. *)
Definition Sprintf_kv (k v : gostring) : gostring := k ++ lit "=" ++ v.
End fmt.

Module filepath.
(** What the walk finds at a path: a file that is not a directory, an
    entry that [Lstat] fails on, a directory whose names cannot be read,
    or a directory with its entries in the order [readDirNames] gives
    them (sorted by name).  [name] is the base name, [FileInfo.Name]. *)
Inductive FsNode : Type :=
| File (name : gostring)
| Broken (name : gostring)
| ClosedDir (name : gostring)
| Dir (name : gostring) (entries : list FsNode).

Definition nodeName (n : FsNode) : gostring :=
  match n with
  | File name | Broken name | ClosedDir name | Dir name _ => name
  end.

Record FileInfo : Type := { Name : gostring; IsDir : bool }.

(** What a [WalkFunc] returns: [nil], [SkipDir], or another error. *)
Inductive WalkResult : Type :=
| Continue
| SkipDir
| Abort (e : error).

Section Walk.
Context {World : Type}.
(** [Join path name], left abstract. *)
Variable Join : gostring -> gostring -> gostring.
(** [walkFn path info errIsNil]. *)
Variable walkFn : gostring -> option FileInfo -> bool -> World -> World * WalkResult.

Fixpoint walk (path : gostring) (node : FsNode) (w : World) : World * WalkResult :=
  match node with
  | File name => walkFn path (Some {| Name := name; IsDir := false |}) true w
  | Broken name => walkFn path None false w
  | ClosedDir name => walkFn path (Some {| Name := name; IsDir := true |}) false w
  | Dir name entries =>
      let '(w1, r1) := walkFn path (Some {| Name := name; IsDir := true |}) true w in
      match r1 with
      | Continue =>
          (fix loop (l : list FsNode) (w : World) : World * WalkResult :=
             match l with
             | [] => (w, Continue)
             | child :: l' =>
                 let '(w', r) := walk (Join path (nodeName child)) child w in
                 match r, child with
                 | Continue, _ => loop l' w'
                 | SkipDir, (Dir _ _ | ClosedDir _ | Broken _) => loop l' w'
                 | _, _ => (w', r)
                 end
             end) entries w1
      | _ => (w1, r1)
      end
  end.

(** [Walk root walkFn]; [SkipDir] at the root is no error. *)
Definition Walk (root : gostring) (node : FsNode) (w : World) : World * option error :=
  match walk root node w with
  | (w', Abort e) => (w', Some e)
  | (w', _) => (w', None)
  end.
End Walk.
End filepath.

(** * config.go *)

(** ** Duration *)

(** [Duration] just wraps [time.Duration], a count of nanoseconds held in
    an [int64]. *)
Record Duration : Type := { Duration_ : Z }.

(** [UnmarshalTOML] parses the duration from the TOML config file.  The
    receiver is passed in and the updated receiver returned beside the
    error. *)
Definition UnmarshalTOML (d : Duration) (b : gostring) : Duration * option error :=
  let b := bytes.Trim b "'"%char in
  (* see if we can directly convert it *)
  let '(dur, err) := time.ParseDuration b in
  let d := {| Duration_ := dur |} in
  match err with
  | None => (d, None)
  | Some _ =>
      (* Parse string duration, ie, "1s" *)
      let '(d, done) :=
        match strconv.Unquote b with
        | (uq, None) =>
            if Nat.ltb 0 (length uq) then
              let '(dur, err) := time.ParseDuration uq in
              ({| Duration_ := dur |},
               match err with None => true | Some _ => false end)
            else (d, false)
        | (_, Some _) => (d, false)
        end in
      if done then (d, None)
      else
        (* First try parsing as integer seconds *)
        match strconv.ParseInt10 b with
        | (sI, None) => ({| Duration_ := wrap_int64 (time.Second * sI) |}, None)
        | (_, Some _) =>
            (* Second try parsing as float seconds *)
            match strconv.ParseFloat64 b with
            | (sF, None) =>
                ({| Duration_ := wrap_int64 (time.Second * f64.to_int64 sF) |}, None)
            | (_, Some _) => (d, None)
            end
        end
  end.

(** ** Plugin registries *)

Section Registry.
(** [InputCreator] and [OutputCreator]: functions making a plugin. *)
Variables InputCreator OutputCreator : Type.

(** [Inputs[name] = creator]. *)
Definition AddInput (name : gostring) (creator : InputCreator)
    (Inputs : gmap gostring InputCreator) : gmap gostring InputCreator :=
  <[name := creator]> Inputs.

(** [Outputs[name] = creator]. *)
Definition AddOutput (name : gostring) (creator : OutputCreator)
    (Outputs : gmap gostring OutputCreator) : gmap gostring OutputCreator :=
  <[name := creator]> Outputs.
End Registry.

Arguments AddInput {InputCreator} name creator Inputs.
Arguments AddOutput {OutputCreator} name creator Outputs.

(** ** The configuration object *)

Record AgentConfig : Type := {
  Interval : Duration;
  Logfile : gostring;
  Hostname : gostring;
  OmitHostname : bool }.

Section Config.
Variables RunningInput RunningOutput : Type.

Record Config : Type := {
  Tags : gmap gostring gostring;
  InputFilters : list gostring;
  OutputFilters : list gostring;
  Agent : AgentConfig;
  Inputs : list RunningInput;
  Outputs : list RunningOutput }.

Definition NewConfig : Config :=
  {| Agent := {| Interval := {| Duration_ := 10 * time.Second |};
                 Logfile := []; Hostname := []; OmitHostname := false |};
     Tags := ∅; Inputs := []; Outputs := [];
     InputFilters := []; OutputFilters := [] |}.

(** The body of [ListTags], given the order in which [range c.Tags]
    yields the entries of the map, which Go leaves unspecified. *)
Definition ListTags_ranging (entries : list (gostring * gostring)) : gostring :=
  let tags := map (fun kv => fmt.Sprintf_kv kv.1 kv.2) entries in
  strings.Join (sort.Strings tags) (lit " ").

(** [ListTags] returns a string of tags specified in the config,
    line-protocol style. *)
Definition ListTags (c : Config) : gostring :=
  ListTags_ranging (map_to_list (Tags c)).
End Config.

Arguments Tags {RunningInput RunningOutput} c.
Arguments ListTags {RunningInput RunningOutput} c.

(** ** Loading a directory *)

Section LoadDirectory.
(** The state the loader works on: the [Config] being filled and the
    log of the process. *)
Context {World : Type}.
Variable Join : gostring -> gostring -> gostring.
(** [c.LoadConfig path]; it returns errors made by [fmt.Errorf], never
    [filepath.SkipDir]. *)
Variable LoadConfig : gostring -> World -> World * option error.
(** [log.Printf "W! Telegraf is not permitted to read %s" thispath]. *)
Variable logNotPermitted : gostring -> World -> World.

(** [name[len(name)-5:] == ".conf"], for a name of five bytes or more. *)
Definition hasConfSuffix (name : gostring) : bool :=
  if decide (drop (length name - 5) name = lit ".conf") then true else false.

Definition walkfn (thispath : gostring) (info : option filepath.FileInfo)
    (errIsNil : bool) (w : World) : World * filepath.WalkResult :=
  match info with
  | None => (logNotPermitted thispath w, filepath.Continue)
  | Some info =>
      if filepath.IsDir info then (w, filepath.Continue)
      else
        let name := filepath.Name info in
        if Nat.ltb (length name) 6 || negb (hasConfSuffix name)
        then (w, filepath.Continue)
        else
          match LoadConfig thispath w with
          | (w', Some err) => (w', filepath.Abort err)
          | (w', None) => (w', filepath.Continue)
          end
  end.

Definition LoadDirectory (path : gostring) (fs : filepath.FsNode) (w : World)
    : World * option error :=
  filepath.Walk Join walkfn path fs w.
End LoadDirectory.

(** ** Reading a file: environment variables *)

(** [trimBOM] trims the Byte-Order-Marks from the beginning of the file. *)
Definition trimBOM (f : gostring) : gostring :=
  bytes.TrimPrefix f [byte_of 239; byte_of 187; byte_of 191].

(** [envVarEscaper.Replace]: every old string is one byte, so each byte
    is replaced on its own. *)
Definition envVarEscaper_Replace (value : gostring) : gostring :=
  flat_map (fun c => if isByte c 34 then [byte_of 92; byte_of 34]
                     else if isByte c 92 then [byte_of 92; byte_of 92]
                     else [c]) value.

(** [escapeEnv] escapes a value for inserting into a TOML string. *)
Definition escapeEnv (value : gostring) : gostring := envVarEscaper_Replace value.

(** The loop of [parseFile] over [env_vars]. *)
Definition replaceEnvVars (LookupEnv : gostring -> option gostring)
    (env_vars : list gostring) (contents : gostring) : gostring :=
  fold_left
    (fun contents env_var =>
       match LookupEnv (strings.TrimPrefix env_var (lit "$")) with
       | Some env_val => bytes.ReplaceFirst contents env_var (escapeEnv env_val)
       | None => contents
       end)
    env_vars contents.

(** The text [parseFile] hands to the TOML parser, from the bytes read. *)
Definition substituteEnv (LookupEnv : gostring -> option gostring)
    (contents : gostring) : gostring :=
  let contents := trimBOM contents in
  let env_vars := regexp.findEnvVars None contents in
  replaceEnvVars LookupEnv env_vars contents.

Section parseFile.
Variable Table : Type.
Variable ReadFile : gostring -> gostring * option error.
Variable toml_Parse : gostring -> option Table * option error.
Variable LookupEnv : gostring -> option gostring.

(** [parseFile] loads a TOML configuration from a provided path and
    returns the AST produced from the TOML parser. *)
Definition parseFile (fpath : gostring) : option Table * option error :=
  match ReadFile fpath with
  | (_, Some err) => (None, Some err)
  | (contents, None) => toml_Parse (substituteEnv LookupEnv contents)
  end.
End parseFile.

(** * The value parser *)

(** A field value, Go's [interface{}] as [Parse] fills it. *)
Inductive value : Type :=
| VNil
| VInt (n : Z)
| VFloat (f : spec_float)
| VString (s : gostring)
| VBool (b : bool).

Record ValueParser : Type := {
  MetricName : gostring;
  DataType : gostring;
  DefaultTags : gmap gostring gostring }.

Section ValueParser.
Variables Metric Time : Type.
(** [New name tags fields tm], of this package. *)
Variable New : gostring -> gmap gostring gostring -> gmap gostring value -> Time
               -> Metric * option error.
(** [time.Now().UTC()] at the call. *)
Variable now : Time.

Definition isType (v : ValueParser) (names : list string) : bool :=
  existsb (fun n => if decide (DataType v = lit n) then true else false) names.

(** The type switch of [Parse]: the value and the error. *)
Definition convert (v : ValueParser) (vStr : gostring) : value * option error :=
  if isType v [""; "int"; "integer"]%string then
    let '(n, err) := strconv.Atoi vStr in (VInt n, err)
  else if isType v ["float"; "long"]%string then
    let '(f, err) := strconv.ParseFloat64 vStr in (VFloat f, err)
  else if isType v ["str"; "string"]%string then (VString vStr, None)
  else if isType v ["bool"; "boolean"]%string then
    let '(b, err) := strconv.ParseBool vStr in (VBool b, err)
  else (VNil, None).

(** The end of [Parse], from the converted token on. *)
Definition makeMetric (v : ValueParser) (conv : value * option error)
    : list Metric * option error :=
  match conv with
  | (_, Some err) => ([], Some err)
  | (val, None) =>
      let fields : gmap gostring value := {[ lit "value" := val ]} in
      match New (MetricName v) (DefaultTags v) fields now with
      | (_, Some err) => ([], Some err)
      | (metric, None) => ([metric], None)
      end
  end.

Definition Parse (v : ValueParser) (buf : gostring) : list Metric * option error :=
  let vStr := bytes.TrimSpace (bytes.Trim buf (byte_of 0)) in
  (* unless it's a string, separate out any fields in the buffer,
     ignore anything but the last. *)
  if negb (isType v ["string"]%string) then
    let values := strings.Fields vStr in
    match last values with
    | None => ([], None)
    | Some vStr => makeMetric v (convert v vStr)
    end
  else makeMetric v (convert v vStr).

Definition ParseLine (v : ValueParser) (line : gostring) : option Metric * option error :=
  match Parse v line with
  | (_, Some err) => (None, Some err)
  | ([], None) =>
      (None, Some (Errorf (lit "Can not parse the line: " ++ line
                           ++ lit ", for data format: value")))
  | (m :: _, None) => (Some m, None)
  end.
End ValueParser.

(** * Specification vocabulary *)

(** The four steps of the cascade of [UnmarshalTOML] all fail on [b]:
    after the single quotes are stripped it is no duration literal, it
    does not unquote to a non-empty duration literal, and it is neither a
    base-10 integer nor a floating-point number. *)
Definition cascade_fails (b : gostring) : Prop :=
  let b' := bytes.Trim b "'"%char in
  (time.ParseDuration b').2 ≠ None
  ∧ ((strconv.Unquote b').2 ≠ None
     ∨ (strconv.Unquote b').1 = []
     ∨ (time.ParseDuration (strconv.Unquote b').1).2 ≠ None)
  ∧ (strconv.ParseInt10 b').2 ≠ None
  ∧ (strconv.ParseFloat64 b').2 ≠ None.

(** The float step of the cascade is reached on [b] and succeeds. *)
Definition float_step_reached (b : gostring) : Prop :=
  let b' := bytes.Trim b "'"%char in
  (time.ParseDuration b').2 ≠ None
  ∧ ((strconv.Unquote b').2 ≠ None
     ∨ (strconv.Unquote b').1 = []
     ∨ (time.ParseDuration (strconv.Unquote b').1).2 ≠ None)
  ∧ (strconv.ParseInt10 b').2 ≠ None
  ∧ (strconv.ParseFloat64 b').2 = None.

(** A run of registrations, in the order the [init] functions make them. *)
Definition register_inputs {InputCreator : Type}
    (regs : list (gostring * InputCreator)) (Inputs : gmap gostring InputCreator)
    : gmap gostring InputCreator :=
  foldl (fun m r => AddInput r.1 r.2 m) Inputs regs.

Definition register_outputs {OutputCreator : Type}
    (regs : list (gostring * OutputCreator)) (Outputs : gmap gostring OutputCreator)
    : gmap gostring OutputCreator :=
  foldl (fun m r => AddOutput r.1 r.2 m) Outputs regs.

(** The creator of the last registration under [name], if there is one. *)
Definition last_registered {Creator : Type} (name : gostring)
    (regs : list (gostring * Creator)) : option Creator :=
  snd <$> last (List.filter (fun r => if decide (r.1 = name) then true else false) regs).

(** The order of [sort.Strings]: [s] is not after [t]. *)
Definition str_le (s t : gostring) : Prop := sort.less t s = false.

(** Tags serialized as the specification words it: the pairs ordered by
    key, each written [key=value], separated by one space. *)
Fixpoint insert_by_key (p : gostring * gostring) (l : list (gostring * gostring))
    : list (gostring * gostring) :=
  match l with
  | [] => [p]
  | q :: l' => if sort.less q.1 p.1 then q :: insert_by_key p l' else p :: l
  end.

Definition sort_by_key (l : list (gostring * gostring)) : list (gostring * gostring) :=
  foldr insert_by_key [] l.

Definition ListTags_sorted_by_key (tags : gmap gostring gostring) : gostring :=
  strings.Join (map (fun kv => fmt.Sprintf_kv kv.1 kv.2) (sort_by_key (map_to_list tags)))
               (lit " ").

(** No key of [tags] continues another key with a byte that is not above
    the equals sign (as a digit or a hyphen would be). *)
Definition key_order_safe (tags : gmap gostring gostring) : Prop :=
  ∀ (k1 k2 : gostring) (c : ascii) (r : gostring),
    is_Some (tags !! k1) → is_Some (tags !! k2) → k2 = k1 ++ c :: r → 61 < code c.

(** A configuration object holding the given tags and nothing else. *)
Definition config_with_tags (tags : gmap gostring gostring) : Config unit unit :=
  {| Tags := tags; InputFilters := []; OutputFilters := [];
     Agent := {| Interval := {| Duration_ := 10 * time.Second |};
                 Logfile := []; Hostname := []; OmitHostname := false |};
     Inputs := []; Outputs := [] |}.

(** [name] ends in [suffix]. *)
Definition has_suffix (name suffix : gostring) : bool :=
  bytes.HasPrefix (rev name) (rev suffix).

(** The names [LoadDirectory] loads: six bytes or more, ending in
    [.conf]. *)
Definition is_conf_name (name : gostring) : bool :=
  Nat.leb 6 (length name) && has_suffix name (lit ".conf").

(** What a walk meets that is not a directory: a file, with its path and
    its name, or an entry that cannot be examined, with its path. *)
Inductive entry : Type :=
| Regular (path name : gostring)
| Unreadable (path : gostring).

(** The entries under [path] in the order the walk visits them: a
    directory's entries in the order of their names, each directory
    entered where it stands. *)
Fixpoint traverse (Join : gostring → gostring → gostring) (path : gostring)
    (node : filepath.FsNode) : list entry :=
  match node with
  | filepath.File name => [Regular path name]
  | filepath.Broken _ => [Unreadable path]
  | filepath.ClosedDir _ => []
  | filepath.Dir _ entries =>
      (fix each (l : list filepath.FsNode) : list entry :=
         match l with
         | [] => []
         | child :: l' => traverse Join (Join path (filepath.nodeName child)) child ++ each l'
         end) entries
  end.

(** Handling the entries one after the other: a file with a [.conf] name
    is loaded, and a failing load ends the run with its error; an entry
    that cannot be examined is logged; every other file is passed over. *)
Fixpoint handle {World : Type} (LoadConfig : gostring → World → World * option error)
    (logNotPermitted : gostring → World → World) (es : list entry) (w : World)
    : World * option error :=
  match es with
  | [] => (w, None)
  | Regular path name :: es' =>
      if is_conf_name name then
        match LoadConfig path w with
        | (w', Some err) => (w', Some err)
        | (w', None) => handle LoadConfig logNotPermitted es' w'
        end
      else handle LoadConfig logNotPermitted es' w
  | Unreadable path :: es' =>
      handle LoadConfig logNotPermitted es' (logNotPermitted path w)
  end.

(** The paths of the files with a [.conf] name among the entries. *)
Definition conf_paths (es : list entry) : list gostring :=
  omap (fun e => match e with
                 | Regular path name => if is_conf_name name then Some path else None
                 | Unreadable _ => None
                 end) es.

(** The paths of the files whose name ends in [.conf], as the
    specification words the selection. *)
Definition conf_suffix_paths (es : list entry) : list gostring :=
  omap (fun e => match e with
                 | Regular path name =>
                     if has_suffix name (lit ".conf") then Some path else None
                 | Unreadable _ => None
                 end) es.

(** The paths [LoadDirectory] hands to the loader, in order, read off a
    loader that only records its argument and always succeeds. *)
Definition recorded_loads (Join : gostring → gostring → gostring) (path : gostring)
    (fs : filepath.FsNode) : list gostring :=
  (LoadDirectory Join (fun p (w : list gostring) => (w ++ [p], None)) (fun _ w => w)
     path fs []).1.

(** Every file among the entries has a name shorter than six bytes, and
    every entry can be examined. *)
Definition short_names_only (es : list entry) : Prop :=
  Forall (fun e => match e with
                   | Regular _ name => (length name < 6)%nat
                   | Unreadable _ => False
                   end) es.

(** [path ++ "/" ++ name]: [filepath.Join] on a clean path and a name. *)
Definition join_slash (path name : gostring) : gostring := path ++ lit "/" ++ name.

(** The text with every token replaced, as the specification words the
    substitution: each occurrence of a token [$NAME] whose variable is set
    gives way to the escaped value, every other byte stays.  [cur] is the
    token being read, as in [regexp.findEnvVars]. *)
Definition expand_token (LookupEnv : gostring → option gostring) (tok : gostring)
    : gostring :=
  match tok with
  | _ :: w :: name =>
      match LookupEnv (w :: name) with
      | Some env_val => escapeEnv env_val
      | None => tok
      end
  | _ => tok
  end.

Fixpoint substitute_every_token (LookupEnv : gostring → option gostring)
    (cur : option gostring) (s : gostring) : gostring :=
  match s with
  | [] => match cur with Some tok => expand_token LookupEnv tok | None => [] end
  | c :: s' =>
      match cur with
      | Some tok =>
          if regexp.isWord c then substitute_every_token LookupEnv (Some (tok ++ [c])) s'
          else expand_token LookupEnv tok
               ++ (if isByte c 36 then substitute_every_token LookupEnv (Some [c]) s'
                   else c :: substitute_every_token LookupEnv None s')
      | None =>
          if isByte c 36 then substitute_every_token LookupEnv (Some [c]) s'
          else c :: substitute_every_token LookupEnv None s'
      end
  end.

(** An environment in which [FOO] is [x] and nothing else is set. *)
Definition env_FOO (name : gostring) : option gostring :=
  if decide (name = lit "FOO") then Some (lit "x") else None.

(** An ASCII white-space byte: tab, line feed, vertical tab, form feed,
    carriage return or space. *)
Definition isSpaceByte (c : ascii) : bool := between 9 c 13 || isByte c 32.

Definition NUL : ascii := byte_of 0.

(** The data types [Parse] knows. *)
Definition recognized_types : list gostring :=
  map lit [""; "int"; "integer"; "float"; "long"; "str"; "string"; "bool"; "boolean"]%string.

(** What [Parse] returns once [New] has been called. *)
Definition metric_result {Metric : Type} (r : Metric * option error)
    : list Metric * option error :=
  match r with
  | (_, Some err) => ([], Some err)
  | (metric, None) => ([metric], None)
  end.

(** A metric as plain data, for running [Parse]: the name and the
    fields it was made from; [plain_New] makes it and never fails. *)
Definition plain_metric : Type := gostring * gmap gostring value.

Definition plain_New (name : gostring) (tags : gmap gostring gostring)
    (fields : gmap gostring value) (tm : unit) : plain_metric * option error :=
  ((name, fields), None).

Definition parser_of_type (dataType : string) : ValueParser :=
  {| MetricName := lit "sensor"; DataType := lit dataType; DefaultTags := ∅ |}.

(** A buffer of white-space and NUL bytes only. *)
Definition space_or_NUL_only (buf : gostring) : Prop :=
  Forall (fun c => isSpaceByte c = true ∨ c = NUL) buf.

(** * More of config.go *)

(** ** The default path *)

Section getDefaultConfigPath.
(** [os.Getenv], which gives the empty string for an unset variable. *)
Variable Getenv : gostring → gostring.
(** [os.Stat path] returns no error. *)
Variable Stat_ok : gostring → bool.
(** [runtime.GOOS == "windows"]. *)
Variable windows : bool.

(** [os.ExpandEnv "${HOME}/.telegraf/telegraf.conf"]. *)
Definition homefile : gostring := Getenv (lit "HOME") ++ lit "/.telegraf/telegraf.conf".

Definition etcfile : gostring :=
  if windows then lit "C:\Program Files\Telegraf\telegraf.conf"
  else lit "/etc/telegraf/telegraf.conf".

(** The loop of [getDefaultConfigPath] over the candidates. *)
Fixpoint firstExisting (paths : list gostring) : option gostring :=
  match paths with
  | [] => None
  | path :: rest => if Stat_ok path then Some path else firstExisting rest
  end.

(** [getDefaultConfigPath]: the path and the error, and the lines it
    logs. *)
Definition getDefaultConfigPath : (gostring * option error) * list gostring :=
  let envfile := Getenv (lit "TELEGRAF_CONFIG_PATH") in
  match firstExisting [envfile; homefile; etcfile] with
  | Some path => ((path, None), [lit "I! Using config file: " ++ path])
  | None =>
      (([], Some (Errorf (lit "No config file specified, and could not find one"
                          ++ lit " in $TELEGRAF_CONFIG_PATH, " ++ homefile
                          ++ lit ", or " ++ etcfile))), [])
  end.
End getDefaultConfigPath.

(** ** Loading one file *)

Section LoadConfig.
Variables RunningInput RunningOutput : Type.
(** The [toml] package of the repository: a table, the values of its
    [Fields], the type assertion of a value to a table, and [UnmarshalTable]
    onto the tags and onto the agent settings, which both update their
    target in place and may fail half-way. *)
Variables Table Node : Type.
Variable Fields : Table → gmap gostring Node.
Variable asTable : Node → option Table.
Variable UnmarshalTable_tags :
  Table → gmap gostring gostring → gmap gostring gostring * option error.
Variable UnmarshalTable_agent : Table → AgentConfig → AgentConfig * option error.
(** [err.Error()]. *)
Variable ErrorText : error → gostring.
Variable ReadFile : gostring → gostring * option error.
Variable toml_Parse : gostring → option Table * option error.
Variable LookupEnv : gostring → option gostring.
Variable Getenv : gostring → gostring.
Variable Stat_ok : gostring → bool.
Variable windows : bool.

(** [fmt.Errorf "Error parsing %s, %s" path err]. *)
Definition errorParsing (path : gostring) (err : error) : error :=
  Errorf (lit "Error parsing " ++ path ++ lit ", " ++ ErrorText err).

(** [fmt.Errorf "%s: invalid configuration" path]. *)
Definition invalidConfiguration (path : gostring) : error :=
  Errorf (path ++ lit ": invalid configuration").

(** The loop of [LoadConfig] over the two names of the tags table. *)
Fixpoint loadTagsTables (path : gostring) (tbl : Table) (tableNames : list gostring)
    (tags : gmap gostring gostring)
    : (gmap gostring gostring * list gostring) * option error :=
  match tableNames with
  | [] => ((tags, []), None)
  | tableName :: rest =>
      match Fields tbl !! tableName with
      | Some val =>
          match asTable val with
          | None => ((tags, []), Some (invalidConfiguration path))
          | Some subTable =>
              match UnmarshalTable_tags subTable tags with
              | (tags', Some err) =>
                  ((tags', [lit "E! Could not parse [global_tags] config"]),
                   Some (errorParsing path err))
              | (tags', None) => loadTagsTables path tbl rest tags'
              end
          end
      | None => loadTagsTables path tbl rest tags
      end
  end.

(** [LoadConfig] loads the given config file and applies it to [c]: the
    configuration afterwards, the lines logged and the error.  [None]
    stands for the run-time panic on a nil table that the parser returned
    without an error. *)
Definition LoadConfig (path : gostring) (c : Config RunningInput RunningOutput)
    : option ((Config RunningInput RunningOutput * list gostring) * option error) :=
  let '((path, err), log0) :=
    match path with
    | [] => getDefaultConfigPath Getenv Stat_ok windows
    | _ => ((path, None), [])
    end in
  match err with
  | Some err => Some ((c, log0), Some err)
  | None =>
      match parseFile Table ReadFile toml_Parse LookupEnv path with
      | (_, Some err) => Some ((c, log0), Some (errorParsing path err))
      | (None, None) => None
      | (Some tbl, None) =>
          (* Parse tags tables first: *)
          match loadTagsTables path tbl [lit "tags"; lit "global_tags"] (Tags c) with
          | ((tags, log1), Some err) =>
              Some (({| Tags := tags; InputFilters := InputFilters _ _ c;
                        OutputFilters := OutputFilters _ _ c; Agent := Agent _ _ c;
                        Inputs := Inputs _ _ c; Outputs := Outputs _ _ c |},
                     log0 ++ log1), Some err)
          | ((tags, log1), None) =>
              let c1 := {| Tags := tags; InputFilters := InputFilters _ _ c;
                           OutputFilters := OutputFilters _ _ c; Agent := Agent _ _ c;
                           Inputs := Inputs _ _ c; Outputs := Outputs _ _ c |} in
              (* Parse agent table: *)
              match Fields tbl !! lit "agent" with
              | Some val =>
                  match asTable val with
                  | None => Some ((c1, log0 ++ log1), Some (invalidConfiguration path))
                  | Some subTable =>
                      let '(agent, err) := UnmarshalTable_agent subTable (Agent _ _ c) in
                      let c2 := {| Tags := tags; InputFilters := InputFilters _ _ c;
                                   OutputFilters := OutputFilters _ _ c; Agent := agent;
                                   Inputs := Inputs _ _ c; Outputs := Outputs _ _ c |} in
                      match err with
                      | Some err =>
                          Some ((c2, log0 ++ log1 ++ [lit "E! Could not parse [agent] config"]),
                                Some (errorParsing path err))
                      | None => Some ((c2, log0 ++ log1), None)
                      end
                  end
              | None => Some ((c1, log0 ++ log1), None)
              end
          end
      end
  end.

(** [InputNames] returns a list of strings of the configured inputs;
    [Name] is the method of the running input. *)
Definition InputNames (Name : RunningInput → gostring)
    (c : Config RunningInput RunningOutput) : list gostring :=
  map Name (Inputs _ _ c).

(** [OutputNames] returns a list of strings of the configured outputs;
    [Name] is the field of the running output. *)
Definition OutputNames (Name : RunningOutput → gostring)
    (c : Config RunningInput RunningOutput) : list gostring :=
  map Name (Outputs _ _ c).
End LoadConfig.

(** ** Printing a plugin's sample configuration *)

Module strings_more.
(** [strings.Split s sep] for a separator of one byte: the pieces of [s]
    between the separators, one more than there are separators. *)
Fixpoint Split (s : gostring) (sep : ascii) : list gostring :=
  match s with
  | [] => [[]]
  | c :: s' =>
      if Ascii.eqb c sep then [] :: Split s' sep
      else match Split s' sep with
           | piece :: pieces => (c :: piece) :: pieces
           | [] => [[c]]
           end
  end.

(** [strings.TrimRight s cutset] for a cutset of one ASCII byte. *)
Definition TrimRight (s : gostring) (c : ascii) : gostring := bytes.trimRightByte s c.
End strings_more.

(** The [printer] interface. *)
Record printer : Type := { Description : gostring; SampleConfig : gostring }.

(** The lines [printConfig] prints for a sample configuration that is
    not empty: [i] counts the lines, [n] is their number. *)
Fixpoint printLines (comment : gostring) (n i : nat) (lines : list gostring) : gostring :=
  match lines with
  | [] => []
  | line :: rest =>
      (if Nat.eqb i 0 || Nat.eqb i (n - 1) then lit (String "010" EmptyString)
       else strings_more.TrimRight (comment ++ line) " "%char ++ lit (String "010" EmptyString))
      ++ printLines comment n (S i) rest
  end.

(** [printConfig]: what it writes to the standard output. *)
Definition printConfig (name : gostring) (p : printer) (op : gostring) (commented : bool)
    : gostring :=
  let nl := lit (String "010" EmptyString) in
  let comment := if commented then lit "# " else [] in
  nl ++ comment ++ lit "# " ++ Description p ++ nl ++ comment
     ++ lit "[[" ++ op ++ lit "." ++ name ++ lit "]]"
  ++ match SampleConfig p with
     | [] => nl ++ comment ++ lit "  # no configuration" ++ nl ++ nl
     | config =>
         let lines := strings_more.Split config "010"%char in
         printLines comment (length lines) 0 lines
     end.

Section PrintConfig.
Variables Input Output InputCreator OutputCreator : Type.
(** Calling a creator, and the two methods of the [printer] interface that
    inputs and outputs have. *)
Variable createInput : InputCreator → Input.
Variable createOutput : OutputCreator → Output.
Variable printerOfInput : Input → printer.
Variable printerOfOutput : Output → printer.

(** [PrintInputConfig] prints the config usage of a single input: what is
    written and the error. *)
Definition PrintInputConfig (Inputs : gmap gostring InputCreator) (name : gostring)
    : gostring * option error :=
  match Inputs !! name with
  | Some creator =>
      (printConfig name (printerOfInput (createInput creator)) (lit "inputs") false, None)
  | None => ([], Some (Errorf (lit "Input " ++ name ++ lit " not found")))
  end.

(** [PrintOutputConfig] prints the config usage of a single output. *)
Definition PrintOutputConfig (Outputs : gmap gostring OutputCreator) (name : gostring)
    : gostring * option error :=
  match Outputs !! name with
  | Some creator =>
      (printConfig name (printerOfOutput (createOutput creator)) (lit "outputs") false, None)
  | None => ([], Some (Errorf (lit "Output " ++ name ++ lit " not found")))
  end.
End PrintConfig.

(** [SetDefaultTags]. *)
Definition SetDefaultTags (v : ValueParser) (tags : gmap gostring gostring) : ValueParser :=
  {| MetricName := MetricName v; DataType := DataType v; DefaultTags := tags |}.

(** ** Vocabulary for the further properties *)

(** Reading an escaped value back, as a TOML basic string is read: a
    backslash makes the byte after it literal.  [pending] holds after a
    backslash. *)
Fixpoint unescape (pending : bool) (s : gostring) : gostring :=
  match s with
  | [] => []
  | c :: s' =>
      if pending then c :: unescape false s'
      else if isByte c 92 then unescape true s'
      else c :: unescape false s'
  end.

(** The text holds a double quote that no backslash escapes, which would
    end the quoted string it stands in. *)
Fixpoint has_bare_quote (pending : bool) (s : gostring) : bool :=
  match s with
  | [] => false
  | c :: s' =>
      if pending then has_bare_quote false s'
      else if isByte c 92 then has_bare_quote true s'
      else isByte c 34 || has_bare_quote false s'
  end.

(** The byte-order mark. *)
Definition BOM : gostring := [byte_of 239; byte_of 187; byte_of 191].

(** The end of a line. *)
Definition newline : ascii := "010"%char.

(** What [printConfig] writes before the sample configuration. *)
Definition printed_head (name op description : gostring) (commented : bool) : gostring :=
  let comment := if commented then lit "# " else [] in
  [newline] ++ comment ++ lit "# " ++ description ++ [newline] ++ comment
  ++ lit "[[" ++ op ++ lit "." ++ name ++ lit "]]".

(** The number that a run of decimal digits writes. *)
Definition decimal_value (digits : gostring) : Z :=
  fold_left (fun n c => n * 10 + (code c - 48)) digits 0.

(** A number of seconds as the bytes of a configuration write it: an
    optional sign before the digits. *)
Inductive sign : Type := NoSign | Plus | Minus.

Definition sign_bytes (sg : sign) : gostring :=
  match sg with NoSign => [] | Plus => lit "+" | Minus => lit "-" end.

Definition signed (sg : sign) (n : Z) : Z :=
  match sg with Minus => - n | _ => n end.

(** An ASCII byte. *)
Definition isASCII (c : ascii) : bool := code c <? 128.

(** An ASCII byte that stands for itself between double quotes: no
    quote, backslash or line feed. *)
Definition plain_byte (c : ascii) : bool :=
  isASCII c && negb (isByte c 34 || isByte c 39 || isByte c 92 || isByte c 10).

(** A byte of an ASCII token: not white space and not NUL. *)
Definition token_byte (c : ascii) : bool :=
  isASCII c && negb (isSpaceByte c) && negb (isByte c 0).

(** * Properties *)

(** ** Duration.UnmarshalTOML *)

Section DurationFacts.

Lemma ParseDuration_error_zero (s : gostring) :
  (time.ParseDuration s).2 ≠ None → (time.ParseDuration s).1 = 0.
Proof.
  unfold time.ParseDuration.
  destruct (match s with
            | [] => (false, s)
            | c :: s' =>
                if isByte c 45 || isByte c 43 then (isByte c 45, s') else (false, s)
            end) as [neg s0].
  destruct (decide (s0 = lit "0")) as [_|_]; [done|].
  destruct s0 as [|c0 s1]; [done|].
  destruct (time.parseGroups _ _ _ _) as [e|d]; [done|].
  destruct neg; [done|].
  destruct (d >? 2 ^ 63 - 1); done.
Qed.

(** The cascade, step by step. *)
Lemma UnmarshalTOML_literal (d : Duration) (b : gostring) (dur : Z) :
  time.ParseDuration (bytes.Trim b "'"%char) = (dur, None) →
  UnmarshalTOML d b = ({| Duration_ := dur |}, None).
Proof. unfold UnmarshalTOML. by intros ->. Qed.

(** C1 (amended).  For every Duration value [d], whatever its previous
    duration, and every byte sequence [b] that fails all four cascade
    steps, [UnmarshalTOML] returns no error and leaves the duration equal
    to zero: the first step stores the result of the failed
    [time.ParseDuration], which is 0, before it looks at the error. *)
Theorem UnmarshalTOML_all_steps_fail_sets_zero (d : Duration) (b : gostring) :
  cascade_fails b → UnmarshalTOML d b = ({| Duration_ := 0 |}, None).
Proof.
  unfold cascade_fails, UnmarshalTOML.
  set (b' := bytes.Trim b "'"%char).
  intros (Hlit & Hquote & Hint & Hfloat).
  pose proof (ParseDuration_error_zero b' Hlit) as Hzero.
  destruct (time.ParseDuration b') as [dur [e|]]; [|done].
  simpl in Hzero; subst dur.
  destruct (strconv.ParseInt10 b') as [sI [eI|]]; [|done].
  destruct (strconv.ParseFloat64 b') as [sF [eF|]]; [|done].
  destruct (strconv.Unquote b') as [uq [eq|]]; [done|].
  simpl in Hquote.
  destruct Hquote as [?|[->|Huq]]; [done|done|].
  pose proof (ParseDuration_error_zero uq Huq) as Hz.
  destruct (time.ParseDuration uq) as [dur [e'|]]; [|done].
  simpl in Hz; subst dur.
  by destruct (0 <? length uq)%nat.
Qed.

Lemma UnmarshalTOML_float_step (d : Duration) (b : gostring) :
  float_step_reached b →
  UnmarshalTOML d b =
    ({| Duration_ :=
          wrap_int64 (time.Second
                      * f64.to_int64 (strconv.ParseFloat64 (bytes.Trim b "'"%char)).1) |},
     None).
Proof.
  unfold float_step_reached, UnmarshalTOML.
  set (b' := bytes.Trim b "'"%char).
  intros (Hlit & Hquote & Hint & Hfloat).
  destruct (time.ParseDuration b') as [dur [e|]]; [|done].
  destruct (strconv.ParseInt10 b') as [sI [eI|]]; [|done].
  destruct (strconv.ParseFloat64 b') as [sF [eF|]]; [done|].
  destruct (strconv.Unquote b') as [uq [eq|]]; [done|].
  simpl in Hquote.
  destruct Hquote as [?|[->|Huq]]; [done|done|].
  destruct (time.ParseDuration uq) as [dur' [e'|]]; [|done].
  by destruct (0 <? length uq)%nat.
Qed.

Lemma cascade_fails_garbage : cascade_fails (lit "garbage").
Proof.
  unfold cascade_fails; repeat split; try left; vm_compute; discriminate.
Defined.

Lemma UnmarshalTOML_all_steps_fail_sets_zero_witness :
  cascade_fails (lit "garbage")
  ∧ UnmarshalTOML {| Duration_ := 10 * time.Second |} (lit "garbage")
    = ({| Duration_ := 0 |}, None).
Proof.
  split; [exact cascade_fails_garbage|].
  apply (UnmarshalTOML_all_steps_fail_sets_zero
           {| Duration_ := 10 * time.Second |} (lit "garbage")).
  exact cascade_fails_garbage.
Defined.

(** C1 as stated does not hold: a duration of ten seconds does not
    survive the input [garbage]. *)
Lemma UnmarshalTOML_garbage_not_preserved :
  ¬ (∀ (d : Duration) (b : gostring),
       cascade_fails b → UnmarshalTOML d b = (d, None)).
Proof.
  intros H.
  specialize (H {| Duration_ := 10 * time.Second |} (lit "garbage")
                cascade_fails_garbage).
  vm_compute in H. discriminate H.
Qed.

(** C2 (the code at the failing input).  The input [2.5] reaches the
    float step, where it parses to the float64 2.5; the duration set is
    two seconds, not two and a half: [time.Duration(sF)] drops the
    fraction before the multiplication by [time.Second]. *)
Theorem UnmarshalTOML_float_seconds_truncated (d : Duration) :
  float_step_reached (lit "2.5")
  ∧ strconv.ParseFloat64 (lit "2.5") = (S754_finite false 5629499534213120 (-51), None)
  ∧ UnmarshalTOML d (lit "2.5") = ({| Duration_ := 2 * time.Second |}, None)
  ∧ 2 * time.Second ≠ 2500 * time.Millisecond.
Proof.
  split; [|split; [|split]].
  - unfold float_step_reached; repeat split; try left; vm_compute;
      first [discriminate | reflexivity].
  - vm_compute; reflexivity.
  - vm_compute; reflexivity.
  - vm_compute; discriminate.
Qed.

(** C5.  On input [1h30m] [UnmarshalTOML] returns no error and sets the
    duration to exactly 90 minutes; on input [45], which is no duration
    literal and does not unquote, it returns no error and sets the
    duration to exactly 45 seconds, the value of the base-10 integer
    step. *)
Theorem UnmarshalTOML_literal_and_integer (d : Duration) :
  UnmarshalTOML d (lit "1h30m") = ({| Duration_ := 90 * time.Minute |}, None)
  ∧ (time.ParseDuration (lit "45")).2 ≠ None
  ∧ (strconv.Unquote (lit "45")).2 ≠ None
  ∧ strconv.ParseInt10 (lit "45") = (45, None)
  ∧ UnmarshalTOML d (lit "45") = ({| Duration_ := 45 * time.Second |}, None).
Proof.
  repeat split; vm_compute; first [reflexivity | discriminate].
Qed.

End DurationFacts.

(** ** The plugin registries *)

Section RegistryFacts.
Context {Creator : Type}.

Lemma last_registered_snoc (name : gostring) (regs : list (gostring * Creator))
    (r : gostring * Creator) :
  last_registered name (regs ++ [r]) =
    if decide (r.1 = name) then Some r.2 else last_registered name regs.
Proof.
  unfold last_registered.
  rewrite List.filter_app. simpl.
  destruct (decide (r.1 = name)) as [Heq|Hne].
  - by rewrite last_snoc.
  - by rewrite app_nil_r.
Qed.

Lemma insert_all_lookup (regs : list (gostring * Creator))
    (m : gmap gostring Creator) (name : gostring) :
  foldl (fun m r => <[r.1 := r.2]> m) m regs !! name =
    match last_registered name regs with
    | Some creator => Some creator
    | None => m !! name
    end.
Proof.
  induction regs as [|r regs IH] using rev_ind.
  - reflexivity.
  - rewrite foldl_snoc, last_registered_snoc.
    destruct (decide (r.1 = name)) as [<-|Hne].
    + by rewrite lookup_insert_eq.
    + by rewrite lookup_insert_ne.
Qed.
End RegistryFacts.

(** C6.  For every plugin name [N] and every sequence of [AddInput]
    (respectively [AddOutput]) registrations, looking [N] up in the
    registry after all of them finds exactly the creator passed to the last
    registration made under [N] (and what the registry held before when
    there was none); registering twice under one name leaves only the
    second creator. *)
Theorem registry_lookup_last_registration (InputCreator OutputCreator : Type) :
  (∀ (regs : list (gostring * InputCreator)) (Inputs : gmap gostring InputCreator)
     (N : gostring),
      register_inputs regs Inputs !! N =
        match last_registered N regs with
        | Some creator => Some creator
        | None => Inputs !! N
        end)
  ∧ (∀ (regs : list (gostring * OutputCreator)) (Outputs : gmap gostring OutputCreator)
       (N : gostring),
      register_outputs regs Outputs !! N =
        match last_registered N regs with
        | Some creator => Some creator
        | None => Outputs !! N
        end)
  ∧ (∀ (N : gostring) (first second : InputCreator) (Inputs : gmap gostring InputCreator),
      AddInput N second (AddInput N first Inputs) = AddInput N second Inputs
      ∧ AddInput N second (AddInput N first Inputs) !! N = Some second)
  ∧ (∀ (N : gostring) (first second : OutputCreator) (Outputs : gmap gostring OutputCreator),
      AddOutput N second (AddOutput N first Outputs) = AddOutput N second Outputs
      ∧ AddOutput N second (AddOutput N first Outputs) !! N = Some second).
Proof.
  repeat split; intros; unfold register_inputs, register_outputs, AddInput, AddOutput.
  - apply insert_all_lookup.
  - apply insert_all_lookup.
  - apply insert_insert_eq.
  - apply lookup_insert_eq.
  - apply insert_insert_eq.
  - apply lookup_insert_eq.
Qed.

(** ** Config.ListTags *)

Section StringOrder.

Lemma code_inj (a b : ascii) : code a = code b → a = b.
Proof.
  unfold code. intros H%(inj Z.of_N).
  rewrite <- (ascii_N_embedding a), <- (ascii_N_embedding b). by rewrite H.
Qed.

Lemma less_irrefl (s : gostring) : sort.less s s = false.
Proof.
  induction s as [|a s IH]; [done|]. simpl.
  by rewrite Z.ltb_irrefl.
Qed.

Lemma less_cons (a b : ascii) (s t : gostring) :
  sort.less (a :: s) (b :: t) = true ↔
  code a < code b ∨ (a = b ∧ sort.less s t = true).
Proof.
  simpl. destruct (Z.ltb_spec (code a) (code b)) as [Hab|Hab].
  - split; [by left|done].
  - destruct (Z.ltb_spec (code b) (code a)) as [Hba|Hba].
    + split; [done|]. intros [?|[-> _]]; lia.
    + assert (a = b) as -> by (apply code_inj; lia).
      split; [by right|]. intros [?|[_ ?]]; [lia|done].
Qed.

Lemma less_trans (s t u : gostring) :
  sort.less s t = true → sort.less t u = true → sort.less s u = true.
Proof.
  revert t u. induction s as [|a s IH]; intros [|b t] [|c u]; try done.
  rewrite !less_cons. intros [Hab|[-> Hst]] [Hbc|[-> Htu]].
  - left; lia.
  - by left.
  - by left.
  - right. split; [done|]. by eapply IH.
Qed.

Lemma less_total (s t : gostring) :
  sort.less s t = true ∨ s = t ∨ sort.less t s = true.
Proof.
  revert t. induction s as [|a s IH]; intros [|b t].
  - by right; left.
  - by left.
  - by right; right.
  - rewrite !less_cons.
    destruct (Z.lt_trichotomy (code a) (code b)) as [?|[Heq%code_inj|?]].
    + left; by left.
    + subst b. destruct (IH t) as [?|[->|?]].
      * left; by right.
      * right; by left.
      * right; right; by right.
    + right; right; by left.
Qed.

Lemma less_asym (s t : gostring) : sort.less s t = true → sort.less t s = false.
Proof.
  intros Hst. destruct (sort.less t s) eqn:Hts; [|done].
  pose proof (less_trans _ _ _ Hst Hts) as H. by rewrite less_irrefl in H.
Qed.

Global Instance str_le_trans : Transitive str_le.
Proof.
  intros s t u Hst Htu. unfold str_le in *.
  destruct (sort.less u s) eqn:Hus; [|done].
  destruct (less_total s t) as [Hlt|[->|Hgt]].
  - pose proof (less_trans _ _ _ Hus Hlt). congruence.
  - congruence.
  - congruence.
Qed.

Global Instance str_le_antisym : AntiSymm (=) str_le.
Proof.
  intros s t Hst Hts. unfold str_le in *.
  destruct (less_total s t) as [?|[?|?]]; congruence.
Qed.

Global Instance str_le_total : Total str_le.
Proof.
  intros s t. unfold str_le.
  destruct (sort.less t s) eqn:Hts; [|by left].
  right. by apply less_asym.
Qed.

Lemma less_str_le (s t : gostring) : sort.less s t = true → str_le s t.
Proof. apply less_asym. Qed.

(** [sort.Strings] returns its argument, rearranged in increasing order. *)
Lemma insert_Permutation (x : gostring) (l : list gostring) :
  sort.insert x l ≡ₚ x :: l.
Proof.
  induction l as [|y l IH]; [done|]. simpl.
  destruct (sort.less y x); [|done].
  rewrite IH. apply Permutation_swap.
Qed.

Lemma Strings_Permutation (l : list gostring) : sort.Strings l ≡ₚ l.
Proof.
  induction l as [|x l IH]; [done|]. simpl.
  rewrite insert_Permutation. by rewrite IH.
Qed.

Lemma insert_Sorted (x : gostring) (l : list gostring) :
  Sorted str_le l → Sorted str_le (sort.insert x l).
Proof.
  induction 1 as [|y l Hs IH Hhd]; simpl.
  - by repeat constructor.
  - destruct (sort.less y x) eqn:Hyx.
    + constructor; [done|].
      destruct Hhd as [|z l Hyz]; simpl.
      * constructor. by apply less_str_le.
      * destruct (sort.less z x); constructor; [done|by apply less_str_le].
    + constructor; [by constructor|]. by constructor.
Qed.

Lemma Strings_Sorted (l : list gostring) : Sorted str_le (sort.Strings l).
Proof.
  induction l as [|x l IH]; simpl; [constructor|by apply insert_Sorted].
Qed.

Lemma Strings_sorted_perm (l l' : list gostring) :
  Sorted str_le l' → l' ≡ₚ l → sort.Strings l = l'.
Proof.
  intros Hs Hp. apply (Sorted_unique str_le).
  - apply Strings_Sorted.
  - done.
  - by rewrite Strings_Permutation, Hp.
Qed.

Lemma Strings_perm_invariant (l l' : list gostring) :
  l ≡ₚ l' → sort.Strings l = sort.Strings l'.
Proof.
  intros Hp. apply Strings_sorted_perm; [apply Strings_Sorted|].
  by rewrite Strings_Permutation, Hp.
Qed.

End StringOrder.

Section ListTagsFacts.

Let fmt_kv (kv : gostring * gostring) : gostring := fmt.Sprintf_kv kv.1 kv.2.
Let key_le (p q : gostring * gostring) : Prop := str_le p.1 q.1.
Let key_lt (p q : gostring * gostring) : Prop := sort.less p.1 q.1 = true.

Local Instance key_le_trans : Transitive key_le.
Proof. intros p q r. unfold key_le. apply str_le_trans. Qed.

Lemma insert_by_key_Permutation p l : insert_by_key p l ≡ₚ p :: l.
Proof.
  induction l as [|q l IH]; [done|]. simpl.
  destruct (sort.less q.1 p.1); [|done].
  rewrite IH. apply Permutation_swap.
Qed.

Lemma sort_by_key_Permutation l : sort_by_key l ≡ₚ l.
Proof.
  induction l as [|p l IH]; [done|]. simpl.
  rewrite insert_by_key_Permutation. by rewrite IH.
Qed.

Lemma insert_by_key_Sorted p l : Sorted key_le l → Sorted key_le (insert_by_key p l).
Proof.
  induction 1 as [|q l Hs IH Hhd]; simpl.
  - by repeat constructor.
  - destruct (sort.less q.1 p.1) eqn:Hqp.
    + constructor; [done|].
      destruct Hhd as [|r l Hqr]; simpl.
      * constructor. by apply less_str_le.
      * destruct (sort.less r.1 p.1); constructor; [done|by apply less_str_le].
    + constructor; [by constructor|]. by constructor.
Qed.

Lemma sort_by_key_Sorted l : Sorted key_le (sort_by_key l).
Proof.
  induction l as [|p l IH]; simpl; [constructor|by apply insert_by_key_Sorted].
Qed.

Lemma distinct_keys_strict l :
  StronglySorted key_le l → NoDup l.*1 → StronglySorted key_lt l.
Proof.
  induction 1 as [|p l Hs IH Hall]; intros Hnd; [constructor|].
  apply NoDup_cons in Hnd as [Hnotin Hnd].
  constructor; [by apply IH|].
  apply Forall_forall. intros q Hq.
  rewrite Forall_forall in Hall. specialize (Hall q Hq).
  unfold key_le, str_le in Hall. unfold key_lt.
  destruct (less_total p.1 q.1) as [?|[Heq|?]]; [done| |congruence].
  exfalso. apply Hnotin. rewrite Heq. by apply list_elem_of_fmap_2.
Qed.

(** A key below another one stays below it once [=value] is appended,
    unless the second key continues the first with a low byte. *)
Lemma fmt_kv_less (k1 k2 v1 v2 : gostring) :
  sort.less k1 k2 = true →
  (∀ c r, k2 = k1 ++ c :: r → 61 < code c) →
  sort.less (fmt.Sprintf_kv k1 v1) (fmt.Sprintf_kv k2 v2) = true.
Proof.
  unfold fmt.Sprintf_kv. revert k2.
  induction k1 as [|a k1 IH]; intros [|b k2] Hlt Hsafe; try done.
  - specialize (Hsafe b k2 eq_refl).
    change (([] : gostring) ++ lit "=" ++ v1) with ("="%char :: v1).
    change ((b :: k2) ++ lit "=" ++ v2) with (b :: (k2 ++ lit "=" ++ v2)).
    apply less_cons. left. change (code "="%char) with 61. lia.
  - change ((a :: k1) ++ lit "=" ++ v1) with (a :: (k1 ++ lit "=" ++ v1)).
    change ((b :: k2) ++ lit "=" ++ v2) with (b :: (k2 ++ lit "=" ++ v2)).
    apply less_cons in Hlt as [Hab|[-> Hlt]]; apply less_cons; [by left|].
    right. split; [done|]. apply IH; [done|].
    intros c r ->. by apply (Hsafe c r).
Qed.

Lemma fmt_kv_sorted (tags : gmap gostring gostring) l :
  key_order_safe tags →
  (∀ p, p ∈ l → tags !! p.1 = Some p.2) →
  StronglySorted key_lt l → Sorted str_le (map fmt_kv l).
Proof.
  intros Hsafe Hin Hs. apply StronglySorted_Sorted.
  induction Hs as [|p l Hs IH Hall]; [constructor|].
  simpl. constructor.
  - apply IH. intros q Hq. apply Hin. by right.
  - apply Forall_map, Forall_forall. intros q Hq.
    rewrite Forall_forall in Hall. specialize (Hall q Hq).
    apply less_str_le, fmt_kv_less; [done|].
    intros c r Heq. apply (Hsafe p.1 q.1 c r); [| |done].
    + rewrite (Hin p); [done|by left].
    + rewrite (Hin q); [done|by right].
Qed.

Lemma ListTags_ranging_perm (l l' : list (gostring * gostring)) :
  l ≡ₚ l' → ListTags_ranging l = ListTags_ranging l'.
Proof.
  intros Hp. unfold ListTags_ranging. f_equal.
  apply Strings_perm_invariant. by apply Permutation_map.
Qed.

Lemma ListTags_ranging_by_key (tags : gmap gostring gostring) :
  key_order_safe tags →
  ListTags_ranging (map_to_list tags) = ListTags_sorted_by_key tags.
Proof.
  intros Hsafe. unfold ListTags_ranging, ListTags_sorted_by_key. f_equal.
  apply Strings_sorted_perm.
  - apply (fmt_kv_sorted tags); [done| |].
    + intros [k v] Hp. simpl. apply elem_of_map_to_list.
      by rewrite <- (sort_by_key_Permutation (map_to_list tags)).
    + apply distinct_keys_strict.
      * apply Sorted_StronglySorted; [apply _|apply sort_by_key_Sorted].
      * rewrite (sort_by_key_Permutation (map_to_list tags)).
        apply NoDup_fst_map_to_list.
  - apply Permutation_map, sort_by_key_Permutation.
Qed.

End ListTagsFacts.

Section ListTagsClaims.
Context {RunningInput RunningOutput : Type}.

(** C7 (amended).  For every tag mapping, [ListTags] returns the tags
    serialized deterministically, whatever order the map is ranged over,
    as space-separated [key=value] pairs in the byte order of the whole
    [key=value] strings; this is the order of the keys whenever no key
    continues another one with a byte that is not above the equals sign.
    The tag map [{dc: us-east, rack: 1a}] serializes as
    [dc=us-east rack=1a]. *)
Theorem ListTags_deterministic_sorted (c : Config RunningInput RunningOutput)
    (entries : list (gostring * gostring)) :
  entries ≡ₚ map_to_list (Tags c) →
  ListTags_ranging entries = ListTags c
  ∧ (∃ strs : list gostring,
       strs ≡ₚ map (fun kv => fmt.Sprintf_kv kv.1 kv.2) (map_to_list (Tags c))
       ∧ Sorted str_le strs
       ∧ ListTags c = strings.Join strs (lit " "))
  ∧ (key_order_safe (Tags c) → ListTags c = ListTags_sorted_by_key (Tags c))
  ∧ (Tags c = {[ lit "dc" := lit "us-east"; lit "rack" := lit "1a" ]} →
     ListTags c = lit "dc=us-east rack=1a").
Proof.
  intros Hperm. split; [|split; [|split]].
  - unfold ListTags. by apply ListTags_ranging_perm.
  - exists (sort.Strings (map (fun kv => fmt.Sprintf_kv kv.1 kv.2) (map_to_list (Tags c)))).
    split; [apply Strings_Permutation|]. split; [apply Strings_Sorted|done].
  - intros Hsafe. unfold ListTags. by apply ListTags_ranging_by_key.
  - intros Htags. unfold ListTags. rewrite Htags. vm_compute. reflexivity.
Qed.

End ListTagsClaims.

Lemma two_keys_lookup (k1 k2 v1 v2 k : gostring) :
  is_Some (({[ k1 := v1; k2 := v2 ]} : gmap gostring gostring) !! k) → k = k1 ∨ k = k2.
Proof.
  intros [v Hv].
  apply lookup_insert_Some in Hv as [[<- _]|[_ Hv]]; [by left|].
  apply lookup_singleton_Some in Hv as [<- _]. by right.
Qed.

Lemma key_order_safe_dc_rack :
  key_order_safe {[ lit "dc" := lit "us-east"; lit "rack" := lit "1a" ]}.
Proof.
  intros k1 k2 c r H1%two_keys_lookup H2%two_keys_lookup Heq.
  destruct H1 as [->| ->], H2 as [->| ->]; vm_compute in Heq;
    first [discriminate Heq | injection Heq as Heq; by destruct r].
Qed.

Lemma ListTags_deterministic_sorted_witness :
  [(lit "rack", lit "1a"); (lit "dc", lit "us-east")]
    ≡ₚ map_to_list (Tags (config_with_tags {[ lit "dc" := lit "us-east"; lit "rack" := lit "1a" ]}))
  ∧ key_order_safe {[ lit "dc" := lit "us-east"; lit "rack" := lit "1a" ]}
  ∧ ListTags_ranging [(lit "rack", lit "1a"); (lit "dc", lit "us-east")]
    = lit "dc=us-east rack=1a"
  ∧ ListTags (config_with_tags {[ lit "dc" := lit "us-east"; lit "rack" := lit "1a" ]})
    = ListTags_sorted_by_key {[ lit "dc" := lit "us-east"; lit "rack" := lit "1a" ]}.
Proof.
  assert ([(lit "rack", lit "1a"); (lit "dc", lit "us-east")]
            ≡ₚ map_to_list
                 (Tags (config_with_tags
                          {[ lit "dc" := lit "us-east"; lit "rack" := lit "1a" ]})))
    as Hperm.
  { simpl. rewrite map_to_list_insert by (vm_compute; reflexivity).
    rewrite map_to_list_singleton. apply Permutation_swap. }
  destruct (ListTags_deterministic_sorted
              (config_with_tags {[ lit "dc" := lit "us-east"; lit "rack" := lit "1a" ]})
              [(lit "rack", lit "1a"); (lit "dc", lit "us-east")] Hperm)
    as (Hrange & _ & Hkey & Hdc).
  split; [exact Hperm|]. split; [exact key_order_safe_dc_rack|].
  split.
  - rewrite Hrange. apply Hdc. reflexivity.
  - apply Hkey. exact key_order_safe_dc_rack.
Defined.

(** C7 as stated does not hold: with the tags [{a: y, a1: x}] the pair
    of key [a1] is written before the pair of key [a]. *)
Lemma ListTags_not_sorted_by_key :
  ¬ (∀ c : Config unit unit, ListTags c = ListTags_sorted_by_key (Tags c)).
Proof.
  intros H.
  specialize (H (config_with_tags {[ lit "a" := lit "y"; lit "a1" := lit "x" ]})).
  vm_compute in H. discriminate H.
Qed.

(** ** Config.LoadDirectory *)

Lemma FsNode_nested_ind (P : filepath.FsNode → Prop) :
  (∀ name, P (filepath.File name)) →
  (∀ name, P (filepath.Broken name)) →
  (∀ name, P (filepath.ClosedDir name)) →
  (∀ name entries, Forall P entries → P (filepath.Dir name entries)) →
  ∀ node, P node.
Proof.
  intros HFile HBroken HClosed HDir.
  fix IH 1. intros [name|name|name|name entries].
  - apply HFile.
  - apply HBroken.
  - apply HClosed.
  - apply HDir. induction entries as [|child entries IHl]; constructor.
    + apply IH.
    + apply IHl.
Qed.

Lemma hasConfSuffix_has_suffix (name : gostring) :
  (6 ≤ length name)%nat → hasConfSuffix name = has_suffix name (lit ".conf").
Proof.
  intros Hlen.
  assert (length (drop (length name - 5) name) = 5%nat) as Hd
    by (rewrite length_drop; lia).
  pose proof (take_drop (length name - 5) name) as Hsplit.
  remember (drop (length name - 5) name) as back eqn:Hback.
  remember (take (length name - 5) name) as front eqn:Hfront.
  unfold hasConfSuffix. rewrite <- Hback.
  unfold has_suffix. rewrite <- Hsplit. clear Hsplit Hback Hfront Hlen.
  rewrite rev_app_distr.
  destruct back as [|c1 [|c2 [|c3 [|c4 [|c5 [|c6 tl]]]]]]; try discriminate Hd.
  clear Hd. generalize (rev front) as rfront.
  intros rfront. cbn [rev app].
  destruct (decide ([c1; c2; c3; c4; c5] = lit ".conf")) as [Heq|Hne].
  - injection Heq as -> -> -> -> ->. reflexivity.
  - change (rev (lit ".conf")) with ["f"; "n"; "o"; "c"; "."]%char.
    cbn [bytes.HasPrefix].
    destruct (Ascii.eqb_spec c5 "f"); [|done].
    destruct (Ascii.eqb_spec c4 "n"); [|done].
    destruct (Ascii.eqb_spec c3 "o"); [|done].
    destruct (Ascii.eqb_spec c2 "c"); [|done].
    destruct (Ascii.eqb_spec c1 "."); [|done].
    subst. by destruct Hne.
Qed.

Section LoadDirectoryFacts.
Context {World : Type}.
Variable Join : gostring → gostring → gostring.
Variable LoadConfig : gostring → World → World * option error.
Variable logNotPermitted : gostring → World → World.

Lemma walkfn_file (thispath name : gostring) (errIsNil : bool) (w : World) :
  walkfn LoadConfig logNotPermitted thispath
    (Some {| filepath.Name := name; filepath.IsDir := false |}) errIsNil w =
  if is_conf_name name then
    match LoadConfig thispath w with
    | (w', Some err) => (w', filepath.Abort err)
    | (w', None) => (w', filepath.Continue)
    end
  else (w, filepath.Continue).
Proof.
  unfold walkfn, is_conf_name. cbn [filepath.IsDir filepath.Name].
  destruct (Nat.ltb_spec (length name) 6) as [Hlt|Hge].
  - apply Nat.leb_gt in Hlt. by rewrite Hlt.
  - rewrite hasConfSuffix_has_suffix by done.
    apply Nat.leb_le in Hge. rewrite Hge. cbn [orb andb].
    by destruct (has_suffix name (lit ".conf")).
Qed.

Lemma handle_app (es1 es2 : list entry) (w : World) :
  handle LoadConfig logNotPermitted (es1 ++ es2) w =
  match handle LoadConfig logNotPermitted es1 w with
  | (w', Some err) => (w', Some err)
  | (w', None) => handle LoadConfig logNotPermitted es2 w'
  end.
Proof.
  revert w. induction es1 as [|[path name|path] es1 IH]; intros w; simpl.
  - done.
  - destruct (is_conf_name name); [|apply IH].
    destruct (LoadConfig path w) as [w' [err|]]; [done|apply IH].
  - apply IH.
Qed.

(** The walk with [walkfn] handles the entries in the order of the
    traversal; it never skips a directory. *)
Lemma walk_handle (node : filepath.FsNode) :
  ∀ (path : gostring) (w : World),
    filepath.walk Join (walkfn LoadConfig logNotPermitted) path node w =
    match handle LoadConfig logNotPermitted (traverse Join path node) w with
    | (w', Some err) => (w', filepath.Abort err)
    | (w', None) => (w', filepath.Continue)
    end.
Proof.
  induction node as [name|name|name|name entries IH] using FsNode_nested_ind;
    intros path w.
  - cbn [filepath.walk traverse handle]. rewrite walkfn_file.
    destruct (is_conf_name name); [|done].
    by destruct (LoadConfig path w) as [w' [err|]].
  - reflexivity.
  - reflexivity.
  - cbn [filepath.walk traverse]. unfold walkfn at 1. cbn [filepath.IsDir].
    revert w. induction IH as [|child entries Hchild _ IHentries]; intros w.
    + reflexivity.
    + rewrite handle_app, Hchild.
      destruct (handle LoadConfig logNotPermitted
                  (traverse Join (Join path (filepath.nodeName child)) child) w)
        as [w' [err|]].
      * by destruct child.
      * apply IHentries.
Qed.

Lemma LoadDirectory_handle (path : gostring) (fs : filepath.FsNode) (w : World) :
  LoadDirectory Join LoadConfig logNotPermitted path fs w =
  handle LoadConfig logNotPermitted (traverse Join path fs) w.
Proof.
  unfold LoadDirectory, filepath.Walk. rewrite walk_handle.
  by destruct (handle LoadConfig logNotPermitted (traverse Join path fs) w)
    as [w' [err|]].
Qed.

Lemma handle_short_names (es : list entry) (w : World) :
  short_names_only es → handle LoadConfig logNotPermitted es w = (w, None).
Proof.
  induction 1 as [|[path name|path] es Hshort _ IH]; simpl; [done| |done].
  unfold is_conf_name. apply Nat.leb_gt in Hshort. by rewrite Hshort.
Qed.

End LoadDirectoryFacts.

Lemma handle_recording (es : list entry) (w : list gostring) :
  handle (fun p (w : list gostring) => (w ++ [p], None)) (fun _ w => w) es w
  = (w ++ conf_paths es, None).
Proof.
  revert w. induction es as [|[path name|path] es IH]; intros w; simpl.
  - by rewrite app_nil_r.
  - unfold conf_paths. simpl. destruct (is_conf_name name).
    + rewrite IH. unfold conf_paths. simpl. by rewrite <- app_assoc.
    + apply IH.
  - apply IH.
Qed.

Lemma recorded_loads_conf_paths (Join : gostring → gostring → gostring)
    (path : gostring) (fs : filepath.FsNode) :
  recorded_loads Join path fs = conf_paths (traverse Join path fs).
Proof.
  unfold recorded_loads. by rewrite LoadDirectory_handle, handle_recording.
Qed.

Lemma handle_never_fails {World : Type}
    (LoadConfig : gostring → World → World * option error)
    (logNotPermitted : gostring → World → World) (es : list entry) (w : World) :
  (∀ p w', (LoadConfig p w').2 = None) →
  (handle LoadConfig logNotPermitted es w).2 = None.
Proof.
  intros Hok. revert w. induction es as [|[path name|path] es IH]; intros w; simpl.
  - done.
  - destruct (is_conf_name name); [|apply IH].
    specialize (Hok path w). destruct (LoadConfig path w) as [w' [err|]]; [done|apply IH].
  - apply IH.
Qed.

(** C8 (amended).  For every directory tree, [LoadDirectory] behaves as
    handling the entries in traversal order: it invokes the single-file
    loader on exactly those files that are not directories and whose name
    has at least six bytes and ends in [.conf], in traversal order and up
    to the first load that fails, whose error it returns; it skips all
    other files without error.  A directory holding [a.conf], [b.conf] and
    [notes.txt] loads exactly [a.conf] and [b.conf]. *)
Theorem LoadDirectory_loads_conf_files {World : Type}
    (Join : gostring → gostring → gostring)
    (LoadConfig : gostring → World → World * option error)
    (logNotPermitted : gostring → World → World)
    (path : gostring) (fs : filepath.FsNode) (w : World) :
  LoadDirectory Join LoadConfig logNotPermitted path fs w
  = handle LoadConfig logNotPermitted (traverse Join path fs) w
  ∧ recorded_loads Join path fs = conf_paths (traverse Join path fs)
  ∧ ((∀ p w', (LoadConfig p w').2 = None) →
     (LoadDirectory Join LoadConfig logNotPermitted path fs w).2 = None)
  ∧ (∀ dir : gostring,
       recorded_loads Join path
         (filepath.Dir dir [filepath.File (lit "a.conf"); filepath.File (lit "b.conf");
                            filepath.File (lit "notes.txt")])
       = [Join path (lit "a.conf"); Join path (lit "b.conf")]).
Proof.
  split; [apply LoadDirectory_handle|].
  split; [apply recorded_loads_conf_paths|].
  split.
  - intros Hok. rewrite LoadDirectory_handle. by apply handle_never_fails.
  - intros dir. by rewrite recorded_loads_conf_paths.
Qed.

Lemma LoadDirectory_loads_conf_files_witness :
  (∀ p (w' : list gostring), ((fun p w => (w ++ [p], None)) p w' : _ * option error).2 = None)
  ∧ LoadDirectory join_slash (fun p (w : list gostring) => (w ++ [p], None)) (fun _ w => w)
      (lit "/etc/telegraf.d")
      (filepath.Dir (lit "telegraf.d")
         [filepath.File (lit "a.conf"); filepath.File (lit "b.conf");
          filepath.File (lit "notes.txt")]) []
    = ([lit "/etc/telegraf.d/a.conf"; lit "/etc/telegraf.d/b.conf"], None).
Proof.
  split; [done|].
  destruct (LoadDirectory_loads_conf_files join_slash
              (fun p (w : list gostring) => (w ++ [p], None)) (fun _ w => w)
              (lit "/etc/telegraf.d")
              (filepath.Dir (lit "telegraf.d")
                 [filepath.File (lit "a.conf"); filepath.File (lit "b.conf");
                  filepath.File (lit "notes.txt")]) [])
    as (Hrun & _ & Hok & _).
  specialize (Hok (fun p w' => eq_refl)).
  rewrite Hrun in *. vm_compute. reflexivity.
Defined.

(** C8 as stated does not hold: the file [.conf] of a directory ends in
    [.conf] and is not loaded. *)
Lemma LoadDirectory_not_every_conf_suffix :
  ¬ (∀ (Join : gostring → gostring → gostring) (path : gostring) (fs : filepath.FsNode),
       recorded_loads Join path fs = conf_suffix_paths (traverse Join path fs)).
Proof.
  intros H.
  specialize (H join_slash (lit "d") (filepath.Dir (lit "d") [filepath.File (lit ".conf")])).
  vm_compute in H. discriminate H.
Qed.

(** C10.  [LoadDirectory] skips every file whose name is shorter than six
    bytes: its walk function returns at once, the loader is not invoked and
    nothing changes, so that a tree holding such files only is loaded
    without effect; a file named exactly [.conf] is not loaded even though
    its name ends in [.conf]. *)
Theorem LoadDirectory_skips_short_names :
  (∀ (World : Type) (LoadConfig : gostring → World → World * option error)
     (logNotPermitted : gostring → World → World)
     (thispath name : gostring) (errIsNil : bool) (w : World),
      (length name < 6)%nat →
      walkfn LoadConfig logNotPermitted thispath
        (Some {| filepath.Name := name; filepath.IsDir := false |}) errIsNil w
      = (w, filepath.Continue))
  ∧ (∀ (World : Type) (Join : gostring → gostring → gostring)
       (LoadConfig : gostring → World → World * option error)
       (logNotPermitted : gostring → World → World)
       (path : gostring) (fs : filepath.FsNode) (w : World),
      short_names_only (traverse Join path fs) →
      LoadDirectory Join LoadConfig logNotPermitted path fs w = (w, None))
  ∧ has_suffix (lit ".conf") (lit ".conf") = true
  ∧ (∀ (Join : gostring → gostring → gostring) (path dir : gostring),
      recorded_loads Join path (filepath.Dir dir [filepath.File (lit ".conf")]) = []).
Proof.
  split; [|split; [|split]].
  - intros World LoadConfig logNotPermitted thispath name errIsNil w Hlen.
    rewrite walkfn_file. unfold is_conf_name.
    apply Nat.leb_gt in Hlen. by rewrite Hlen.
  - intros World Join LoadConfig logNotPermitted path fs w Hshort.
    rewrite LoadDirectory_handle. by apply handle_short_names.
  - reflexivity.
  - intros Join path dir. by rewrite recorded_loads_conf_paths.
Qed.

Lemma LoadDirectory_skips_short_names_witness :
  (length (lit ".conf") < 6)%nat
  ∧ short_names_only
      (traverse join_slash (lit "d") (filepath.Dir (lit "d") [filepath.File (lit ".conf")]))
  ∧ walkfn (fun p (w : list gostring) => (w ++ [p], Some (Errorf p))) (fun _ w => w)
      (lit "d/.conf") (Some {| filepath.Name := lit ".conf"; filepath.IsDir := false |})
      true []
    = ([], filepath.Continue)
  ∧ LoadDirectory join_slash (fun p (w : list gostring) => (w ++ [p], Some (Errorf p)))
      (fun _ w => w) (lit "d") (filepath.Dir (lit "d") [filepath.File (lit ".conf")]) []
    = ([], None).
Proof.
  assert ((length (lit ".conf") < 6)%nat) as Hlen by (vm_compute; lia).
  assert (short_names_only
            (traverse join_slash (lit "d")
               (filepath.Dir (lit "d") [filepath.File (lit ".conf")]))) as Hshort.
  { repeat constructor. }
  destruct LoadDirectory_skips_short_names as (Hwalkfn & Htree & _ & _).
  split; [exact Hlen|]. split; [exact Hshort|]. split.
  - by apply Hwalkfn.
  - by apply Htree.
Defined.

(** ** parseFile: environment variables *)

Lemma replaceEnvVars_unset (LookupEnv : gostring → option gostring)
    (env_vars : list gostring) (contents : gostring) :
  (∀ name, LookupEnv name = None) →
  replaceEnvVars LookupEnv env_vars contents = contents.
Proof.
  intros Hunset. unfold replaceEnvVars.
  induction env_vars as [|env_var env_vars IH]; simpl; [done|].
  by rewrite Hunset.
Qed.

(** With no variable set the text is handed on as it was read, the
    byte-order mark apart. *)
Lemma substituteEnv_unset (LookupEnv : gostring → option gostring) (contents : gostring) :
  (∀ name, LookupEnv name = None) →
  substituteEnv LookupEnv contents = trimBOM contents.
Proof. intros Hunset. unfold substituteEnv. by apply replaceEnvVars_unset. Qed.

(** C3 (the code at the failing input).  In the text [$FOOBAR $FOO], with
    [FOO] set to [x] and [FOOBAR] unset, the tokens found are [$FOOBAR]
    and [$FOO]; the replacement of [$FOO] lands on the first bytes of
    [$FOOBAR], so that the unset token is not left verbatim and the token
    [$FOO] is not replaced, where replacing every token gives
    [$FOOBAR x]. *)
Theorem substituteEnv_replaces_inside_longer_token :
  regexp.findEnvVars None (lit "$FOOBAR $FOO") = [lit "$FOOBAR"; lit "$FOO"]
  ∧ env_FOO (lit "FOO") = Some (lit "x")
  ∧ env_FOO (lit "FOOBAR") = None
  ∧ substituteEnv env_FOO (lit "$FOOBAR $FOO") = lit "xBAR $FOO"
  ∧ substitute_every_token env_FOO None (lit "$FOOBAR $FOO") = lit "$FOOBAR x"
  ∧ substituteEnv env_FOO (lit "$FOOBAR $FOO")
    ≠ substitute_every_token env_FOO None (lit "$FOOBAR $FOO").
Proof.
  repeat split; vm_compute; first [reflexivity | discriminate].
Qed.

(** Where the set token stands alone the two agree, and the value is
    escaped. *)
Lemma substituteEnv_single_token :
  substituteEnv env_FOO (lit "user = $FOO # $BAR") = lit "user = x # $BAR"
  ∧ substitute_every_token env_FOO None (lit "user = $FOO # $BAR") = lit "user = x # $BAR"
  ∧ escapeEnv [ "a"; byte_of 34; "b"; byte_of 92; "c" ]%char
    = [ "a"; byte_of 92; byte_of 34; "b"; byte_of 92; byte_of 92; "c" ]%char.
Proof.
  repeat split; vm_compute; reflexivity.
Qed.

(** ** ValueParser.Parse *)

Section TrimFacts.

Lemma trimLeftByte_run (c : ascii) (run s : gostring) :
  Forall (fun x => x = c) run → bytes.trimLeftByte (run ++ s) c = bytes.trimLeftByte s c.
Proof.
  induction 1 as [|x run -> _ IH]; simpl; [done|].
  by rewrite Ascii.eqb_refl.
Qed.

Lemma trimLeftByte_stop (c : ascii) (s : gostring) :
  Forall (fun x => x ≠ c) s → bytes.trimLeftByte s c = s.
Proof.
  intros [|x s' Hx _]; simpl; [done|].
  by destruct (Ascii.eqb_spec x c).
Qed.

Lemma isSpaceByte_not_NUL (ws : gostring) :
  Forall (fun c => isSpaceByte c = true) ws → Forall (fun x => x ≠ NUL) ws.
Proof.
  intros Hws. eapply Forall_impl; [exact Hws|].
  intros c Hc ->. vm_compute in Hc. discriminate Hc.
Qed.

(** Stripping the NUL bytes off both ends of NULs, white space, NULs
    leaves the white space. *)
Lemma Trim_NUL_blank (nuls1 ws nuls2 : gostring) :
  Forall (fun x => x = NUL) nuls1 →
  Forall (fun c => isSpaceByte c = true) ws →
  Forall (fun x => x = NUL) nuls2 →
  bytes.Trim (nuls1 ++ ws ++ nuls2) NUL = ws.
Proof.
  intros H1 Hws%isSpaceByte_not_NUL H2.
  unfold bytes.Trim, bytes.trimRightByte.
  rewrite !rev_app_distr, <- app_assoc.
  rewrite trimLeftByte_run by (by apply Forall_rev).
  destruct ws as [|c ws] using rev_ind.
  - simpl. rewrite <- (app_nil_r (rev nuls1)).
    rewrite trimLeftByte_run by (by apply Forall_rev).
    simpl. done.
  - clear IHws.
    assert (c ≠ NUL) as Hc
      by (apply Forall_app in Hws as [_ Hc]; by inversion Hc).
    rewrite rev_app_distr. cbn [rev app].
    cbn [bytes.trimLeftByte]. destruct (Ascii.eqb_spec c NUL) as [?|_]; [done|].
    change (c :: rev ws ++ rev nuls1) with ((c :: rev ws) ++ rev nuls1).
    rewrite rev_app_distr, rev_involutive. cbn [rev]. rewrite rev_involutive.
    rewrite trimLeftByte_run by done.
    by apply trimLeftByte_stop.
Qed.

Lemma trimLeftFunc_blank (ws : gostring) (fuel : nat) :
  Forall (fun c => isSpaceByte c = true) ws → (length ws ≤ fuel)%nat →
  bytes.trimLeftFunc fuel unicode.IsSpace ws = [].
Proof.
  intros Hws. revert fuel.
  induction Hws as [|c ws Hc _ IH]; intros fuel Hfuel.
  - by destruct fuel.
  - destruct fuel as [|fuel]; [simpl in Hfuel; lia|].
    cbn [bytes.trimLeftFunc].
    assert (utf8.DecodeRune (c :: ws) = (code c, 1%nat)
            ∧ unicode.IsSpace (code c) = true) as [-> ->].
    { unfold isSpaceByte, between, isByte in Hc. unfold utf8.DecodeRune, unicode.IsSpace.
      assert (code c < 128) as Hlt by lia.
      apply Z.ltb_lt in Hlt. rewrite Hlt. split; [done|].
      replace (code c <=? 255) with true by (symmetry; apply Z.leb_le; lia).
      apply orb_true_iff in Hc as [Hc|Hc].
      - by rewrite Hc.
      - rewrite Hc. by rewrite orb_true_r. }
    simpl. apply IH. simpl in Hfuel. lia.
Qed.

Lemma TrimSpace_blank (ws : gostring) :
  Forall (fun c => isSpaceByte c = true) ws → bytes.TrimSpace ws = [].
Proof.
  intros Hws. unfold bytes.TrimSpace, bytes.TrimFunc, bytes.TrimLeftFunc.
  by rewrite trimLeftFunc_blank.
Qed.

End TrimFacts.

Section ParseFacts.
Variables Metric Time : Type.
Variable New : gostring → gmap gostring gostring → gmap gostring value → Time
               → Metric * option error.
Variable now : Time.

Lemma isType_false (v : ValueParser) (names : list string) :
  Forall (fun n => DataType v ≠ lit n) names → isType v names = false.
Proof.
  unfold isType. induction 1 as [|n names Hn _ IH]; simpl; [done|].
  by destruct (decide (DataType v = lit n)).
Qed.

Lemma unrecognized_convert (v : ValueParser) (vStr : gostring) :
  DataType v ∉ recognized_types → convert v vStr = (VNil, None).
Proof.
  intros Hnot. unfold convert.
  assert (∀ n, lit n ∈ recognized_types → DataType v ≠ lit n) as Hne
    by (intros n Hn Heq; apply Hnot; by rewrite Heq).
  rewrite !isType_false; [done|..];
    repeat (constructor; [apply Hne; unfold recognized_types; set_solver|]);
    constructor.
Qed.

(** C4 (amended).  For every declared data type other than the literal
    [string], and every input buffer made of NUL bytes, then white-space
    bytes, then NUL bytes (any of the three runs may be empty; [  \x00]
    is such a buffer), [Parse] returns an empty metric sequence and a nil
    error. *)
Theorem Parse_blank_buffer_empty (v : ValueParser) (nuls1 ws nuls2 : gostring) :
  DataType v ≠ lit "string" →
  Forall (fun c => c = NUL) nuls1 →
  Forall (fun c => isSpaceByte c = true) ws →
  Forall (fun c => c = NUL) nuls2 →
  Parse Metric Time New now v (nuls1 ++ ws ++ nuls2) = ([], None).
Proof.
  intros Htype H1 Hws H2. unfold Parse.
  rewrite isType_false by (by repeat constructor).
  change (byte_of 0) with NUL.
  rewrite Trim_NUL_blank by done.
  by rewrite TrimSpace_blank.
Qed.

(** C9.  For every declared data type outside the recognized set, the
    type switch of [Parse] converts nothing and gives no error: the value
    is the nil value whatever the token is.  So for every input buffer
    [Parse] returns no conversion error, and for every buffer that holds
    at least one white-space-delimited token once it is trimmed, what
    [Parse] returns is what [New] makes of the single field [value]
    holding the nil value rather than the token. *)
Theorem Parse_unrecognized_type_nil_value (v : ValueParser) :
  DataType v ∉ recognized_types →
  (∀ vStr, convert v vStr = (VNil, None))
  ∧ (∀ buf,
       Parse Metric Time New now v buf =
       match last (strings.Fields (bytes.TrimSpace (bytes.Trim buf NUL))) with
       | None => ([], None)
       | Some _ =>
           metric_result
             (New (MetricName v) (DefaultTags v) {[ lit "value" := VNil ]} now)
       end)
  ∧ (∀ buf,
       strings.Fields (bytes.TrimSpace (bytes.Trim buf NUL)) ≠ [] →
       Parse Metric Time New now v buf =
       metric_result (New (MetricName v) (DefaultTags v) {[ lit "value" := VNil ]} now)).
Proof.
  intros Hnot.
  assert (∀ buf,
            Parse Metric Time New now v buf =
            match last (strings.Fields (bytes.TrimSpace (bytes.Trim buf NUL))) with
            | None => ([], None)
            | Some _ =>
                metric_result
                  (New (MetricName v) (DefaultTags v) {[ lit "value" := VNil ]} now)
            end) as Hparse.
  { intros buf. unfold Parse. rewrite isType_false.
    - change (byte_of 0) with NUL. cbn [negb].
      destruct (last (strings.Fields (bytes.TrimSpace (bytes.Trim buf NUL))))
        as [tok|]; [|done].
      rewrite unrecognized_convert by done. unfold makeMetric, metric_result.
      by destruct (New _ _ _ _) as [m [err|]].
    - constructor; [|constructor]. intros Heq. apply Hnot. rewrite Heq.
      unfold recognized_types. set_solver. }
  split; [intros vStr; by apply unrecognized_convert|].
  split; [exact Hparse|].
  intros buf Htokens. rewrite Hparse.
  destruct (last (strings.Fields (bytes.TrimSpace (bytes.Trim buf NUL))))
    as [tok|] eqn:Hlast; [done|].
  by apply last_None in Hlast.
Qed.

End ParseFacts.

Lemma Parse_blank_buffer_empty_witness :
  DataType (parser_of_type "int") ≠ lit "string"
  ∧ Forall (fun c => c = NUL) []
  ∧ Forall (fun c => isSpaceByte c = true) (lit "  ")
  ∧ Forall (fun c => c = NUL) [NUL]
  ∧ Parse plain_metric unit plain_New tt (parser_of_type "int") (lit "  " ++ [NUL])
    = ([], None).
Proof.
  assert (DataType (parser_of_type "int") ≠ lit "string") as Htype
    by (vm_compute; discriminate).
  assert (Forall (fun c => isSpaceByte c = true) (lit "  ")) as Hws
    by (repeat constructor).
  assert (Forall (fun c => c = NUL) [NUL]) as Hnul by (repeat constructor).
  split; [exact Htype|]. split; [constructor|].
  split; [exact Hws|]. split; [exact Hnul|].
  exact (Parse_blank_buffer_empty plain_metric unit plain_New tt
           (parser_of_type "int") [] (lit "  ") [NUL] Htype (Forall_nil_2 _) Hws Hnul).
Defined.

(** With the data type [string] the buffer [  \x00] never gives the
    empty sequence with a nil error, whatever [New] does: the trimmed
    buffer, the empty string, is the value of one metric, or [New] fails. *)
Lemma Parse_string_type_blank_buffer (Metric Time : Type)
    (New : gostring → gmap gostring gostring → gmap gostring value → Time
           → Metric * option error)
    (now : Time) :
  Parse Metric Time New now (parser_of_type "string") (lit "  " ++ [NUL])
  = metric_result (New (lit "sensor") ∅ {[ lit "value" := VString [] ]} now)
  ∧ Parse Metric Time New now (parser_of_type "string") (lit "  " ++ [NUL]) ≠ ([], None).
Proof.
  assert (Parse Metric Time New now (parser_of_type "string") (lit "  " ++ [NUL])
          = metric_result (New (lit "sensor") ∅ {[ lit "value" := VString [] ]} now))
    as Hrun.
  { unfold Parse, makeMetric, metric_result.
    change (isType (parser_of_type "string") ["string"%string]) with true.
    cbn [negb].
    change (bytes.TrimSpace (bytes.Trim (lit "  " ++ [NUL]) (byte_of 0)))
      with ([] : gostring).
    reflexivity. }
  split; [exact Hrun|].
  rewrite Hrun. unfold metric_result.
  by destruct (New _ _ _ _) as [m [err|]].
Qed.

(** C4 as stated does not hold: with the data type [string] the buffer
    [  \x00] gives one metric, whose value is the empty string. *)
Lemma Parse_string_type_blank_buffer_not_empty :
  ¬ (∀ (Metric Time : Type)
       (New : gostring → gmap gostring gostring → gmap gostring value → Time
              → Metric * option error)
       (now : Time) (v : ValueParser) (buf : gostring),
        DataType v ∈ recognized_types → space_or_NUL_only buf →
        Parse Metric Time New now v buf = ([], None)).
Proof.
  intros H.
  destruct (Parse_string_type_blank_buffer plain_metric unit plain_New tt) as [_ Hne].
  apply Hne, H.
  - unfold recognized_types. set_solver.
  - unfold space_or_NUL_only. repeat constructor; by right.
Qed.

(** A NUL byte between white space is not trimmed: it is the token, and
    its conversion fails. *)
Lemma Parse_enclosed_NUL_is_token :
  space_or_NUL_only (lit " " ++ [NUL] ++ lit " ")
  ∧ snd (Parse plain_metric unit plain_New tt (parser_of_type "int")
           (lit " " ++ [NUL] ++ lit " "))
    = Some (ErrSyntax "Atoi" [NUL]).
Proof.
  split; [|vm_compute; reflexivity].
  unfold space_or_NUL_only. repeat constructor; by right.
Qed.

Lemma Parse_unrecognized_type_nil_value_witness :
  (DataType (parser_of_type "double") ∉ recognized_types)
  ∧ strings.Fields (bytes.TrimSpace (bytes.Trim (lit "Temp: 23.5") NUL)) ≠ []
  ∧ Parse plain_metric unit plain_New tt (parser_of_type "double") (lit "Temp: 23.5")
    = ([(lit "sensor", {[ lit "value" := VNil ]})], None).
Proof.
  assert (DataType (parser_of_type "double") ∉ recognized_types) as Htype
    by (apply (bool_decide_unpack _); vm_compute; exact I).
  assert (strings.Fields (bytes.TrimSpace (bytes.Trim (lit "Temp: 23.5") NUL)) ≠ [])
    as Htokens by (vm_compute; discriminate).
  split; [exact Htype|]. split; [exact Htokens|].
  destruct (Parse_unrecognized_type_nil_value plain_metric unit plain_New tt
              (parser_of_type "double") Htype)
    as (_ & _ & Hrun).
  rewrite (Hrun (lit "Temp: 23.5") Htokens). reflexivity.
Defined.

(** * Further properties *)

(** ** Duration.UnmarshalTOML *)

(** X1.  [UnmarshalTOML] never returns an error, whatever the bytes, and
    what it leaves in the duration does not depend on what the duration
    held before. *)
Theorem UnmarshalTOML_never_fails_and_overwrites (d d' : Duration) (b : gostring) :
  (UnmarshalTOML d b).2 = None
  ∧ (UnmarshalTOML d b).1 = (UnmarshalTOML d' b).1.
Proof.
  split; [|reflexivity].
  unfold UnmarshalTOML.
  destruct (time.ParseDuration (bytes.Trim b "'"%char)) as [dur [e|]]; [|done].
  destruct (strconv.Unquote (bytes.Trim b "'"%char)) as [uq [eq|]].
  - destruct (strconv.ParseInt10 _) as [sI [eI|]]; [|done].
    by destruct (strconv.ParseFloat64 _) as [sF [eF|]].
  - destruct (0 <? length uq)%nat.
    + destruct (time.ParseDuration uq) as [dur' [e'|]]; [|done].
      destruct (strconv.ParseInt10 _) as [sI [eI|]]; [|done].
      by destruct (strconv.ParseFloat64 _) as [sF [eF|]].
    + destruct (strconv.ParseInt10 _) as [sI [eI|]]; [|done].
      by destruct (strconv.ParseFloat64 _) as [sF [eF|]].
Qed.

(** ** ValueParser *)

Section ParseMore.
Variables Metric Time : Type.
Variable New : gostring → gmap gostring gostring → gmap gostring value → Time
               → Metric * option error.
Variable now : Time.

Lemma makeMetric_shape (v : ValueParser) (conv : value * option error) :
  (∃ m, makeMetric Metric Time New now v conv = ([m], None))
  ∨ (∃ err, makeMetric Metric Time New now v conv = ([], Some err)).
Proof.
  unfold makeMetric. destruct conv as [val [err|]]; [right; by eexists|].
  destruct (New _ _ _ _) as [m [err|]]; [right|left]; by eexists.
Qed.

Lemma Parse_shape (v : ValueParser) (buf : gostring) :
  Parse Metric Time New now v buf = ([], None)
  ∨ (∃ m, Parse Metric Time New now v buf = ([m], None))
  ∨ (∃ err, Parse Metric Time New now v buf = ([], Some err)).
Proof.
  unfold Parse.
  destruct (negb (isType v ["string"%string])).
  - destruct (last _) as [tok|]; [|by left].
    right. apply makeMetric_shape.
  - right. apply makeMetric_shape.
Qed.

(** X2.  [Parse] returns at most one metric, and none beside an error. *)
Theorem Parse_at_most_one_metric (v : ValueParser) (buf : gostring) :
  (length (Parse Metric Time New now v buf).1 ≤ 1)%nat
  ∧ ((Parse Metric Time New now v buf).2 ≠ None →
     (Parse Metric Time New now v buf).1 = []).
Proof.
  destruct (Parse_shape v buf) as [->|[[m ->]|[err ->]]]; simpl; split; try done; lia.
Qed.

(** X3.  [ParseLine] returns either a metric or an error, never both and
    never neither; the metric is the one [Parse] returns, the error is
    that of [Parse] or, when [Parse] returns nothing, the error that the
    line cannot be parsed. *)
Theorem ParseLine_metric_or_error (v : ValueParser) (line : gostring) :
  match ParseLine Metric Time New now v line with
  | (Some m, None) => Parse Metric Time New now v line = ([m], None)
  | (None, Some err) =>
      Parse Metric Time New now v line = ([], Some err)
      ∨ (Parse Metric Time New now v line = ([], None)
         ∧ err = Errorf (lit "Can not parse the line: " ++ line
                         ++ lit ", for data format: value"))
  | _ => False
  end.
Proof.
  unfold ParseLine.
  destruct (Parse_shape v line) as [->|[[m ->]|[err ->]]]; [by right|done|by left].
Qed.

End ParseMore.

Lemma Parse_at_most_one_metric_witness :
  (Parse plain_metric unit (fun _ _ _ _ => ((lit "m", ∅), Some ErrUnquote)) tt
     (parser_of_type "int") (lit "7")).2 ≠ None
  ∧ (Parse plain_metric unit (fun _ _ _ _ => ((lit "m", ∅), Some ErrUnquote)) tt
       (parser_of_type "int") (lit "7")).1 = [].
Proof.
  assert ((Parse plain_metric unit (fun _ _ _ _ => ((lit "m", ∅), Some ErrUnquote)) tt
             (parser_of_type "int") (lit "7")).2 ≠ None) as Herr
    by (vm_compute; discriminate).
  split; [exact Herr|].
  destruct (Parse_at_most_one_metric plain_metric unit
              (fun _ _ _ _ => ((lit "m", ∅), Some ErrUnquote)) tt
              (parser_of_type "int") (lit "7")) as [_ Hnone].
  exact (Hnone Herr).
Defined.

(** ** Config.LoadDirectory *)

Section LoadDirectoryMore.
Context {World : Type}.
Variable Join : gostring → gostring → gostring.
Variable LoadConfig : gostring → World → World * option error.
Variable logNotPermitted : gostring → World → World.

Lemma handle_error_origin (es : list entry) (w : World) (err : error) :
  (handle LoadConfig logNotPermitted es w).2 = Some err →
  ∃ p w', p ∈ conf_paths es ∧ (LoadConfig p w').2 = Some err.
Proof.
  revert w. induction es as [|[path name|path] es IH]; intros w; simpl; [done| |].
  - unfold conf_paths. simpl. destruct (is_conf_name name).
    + destruct (LoadConfig path w) as [w' [e|]] eqn:Hload.
      * simpl. intros [= ->]. exists path, w. split; [by left|by rewrite Hload].
      * intros (p & w'' & Hp & He)%IH. exists p, w''. split; [by right|done].
    + apply IH.
  - apply IH.
Qed.

(** X4.  An error that [LoadDirectory] returns is an error that the
    single-file loader returned for one of the files with a [.conf] name
    under the directory: an entry that cannot be read, a directory or
    another file never makes the walk fail. *)
Theorem LoadDirectory_error_origin (path : gostring) (fs : filepath.FsNode) (w : World)
    (err : error) :
  (LoadDirectory Join LoadConfig logNotPermitted path fs w).2 = Some err →
  ∃ p w', p ∈ recorded_loads Join path fs ∧ (LoadConfig p w').2 = Some err.
Proof.
  rewrite LoadDirectory_handle, recorded_loads_conf_paths. apply handle_error_origin.
Qed.

Lemma traverse_Dir_app (name : gostring) (es1 es2 : list filepath.FsNode) (path : gostring) :
  traverse Join path (filepath.Dir name (es1 ++ es2)) =
  traverse Join path (filepath.Dir name es1) ++ traverse Join path (filepath.Dir name es2).
Proof.
  cbn [traverse]. induction es1 as [|child es1 IH]; [done|].
  cbn [app]. rewrite IH. by rewrite app_assoc.
Qed.

(** X5.  Loading a directory is loading its entries one after the other:
    for entries split in two, the second part is loaded in the state the
    first part leaves, unless the first part fails; the name of the
    directory itself plays no part. *)
Theorem LoadDirectory_entries_in_sequence (path name name1 name2 : gostring)
    (es1 es2 : list filepath.FsNode) (w : World) :
  LoadDirectory Join LoadConfig logNotPermitted path (filepath.Dir name (es1 ++ es2)) w =
  match LoadDirectory Join LoadConfig logNotPermitted path (filepath.Dir name1 es1) w with
  | (w', Some err) => (w', Some err)
  | (w', None) =>
      LoadDirectory Join LoadConfig logNotPermitted path (filepath.Dir name2 es2) w'
  end.
Proof.
  rewrite !LoadDirectory_handle, traverse_Dir_app, handle_app.
  change (traverse Join path (filepath.Dir name es1))
    with (traverse Join path (filepath.Dir name1 es1)).
  destruct (handle LoadConfig logNotPermitted
              (traverse Join path (filepath.Dir name1 es1)) w) as [w' [err|]]; [done|].
  by rewrite LoadDirectory_handle.
Qed.

End LoadDirectoryMore.

Lemma LoadDirectory_error_origin_witness :
  (LoadDirectory join_slash (fun p (w : list gostring) => (w ++ [p], Some (Errorf p)))
     (fun _ w => w) (lit "d")
     (filepath.Dir (lit "d") [filepath.Broken (lit "x"); filepath.File (lit "a.conf")]) []).2
  = Some (Errorf (lit "d/a.conf"))
  ∧ ∃ p w', p ∈ recorded_loads join_slash (lit "d")
                  (filepath.Dir (lit "d") [filepath.Broken (lit "x"); filepath.File (lit "a.conf")])
            ∧ ((fun p (w : list gostring) => (w ++ [p], Some (Errorf p))) p w').2
              = Some (Errorf (lit "d/a.conf")).
Proof.
  assert ((LoadDirectory join_slash
             (fun p (w : list gostring) => (w ++ [p], Some (Errorf p)))
             (fun _ w => w) (lit "d")
             (filepath.Dir (lit "d")
                [filepath.Broken (lit "x"); filepath.File (lit "a.conf")]) []).2
          = Some (Errorf (lit "d/a.conf"))) as Herr by (vm_compute; reflexivity).
  split; [exact Herr|].
  exact (LoadDirectory_error_origin join_slash
           (fun p (w : list gostring) => (w ++ [p], Some (Errorf p))) (fun _ w => w)
           (lit "d")
           (filepath.Dir (lit "d") [filepath.Broken (lit "x"); filepath.File (lit "a.conf")])
           [] (Errorf (lit "d/a.conf")) Herr).
Defined.

(** ** getDefaultConfigPath *)

Section DefaultPathFacts.
Variable Getenv : gostring → gostring.
Variable Stat_ok : gostring → bool.
Variable windows : bool.

Lemma firstExisting_Some (paths : list gostring) (p : gostring) :
  firstExisting Stat_ok paths = Some p ↔
  ∃ before after, paths = before ++ p :: after
                  ∧ Stat_ok p = true ∧ Forall (fun q => Stat_ok q = false) before.
Proof.
  induction paths as [|q paths IH]; simpl.
  - split; [done|]. intros (before & after & Heq & _). by destruct before.
  - destruct (Stat_ok q) eqn:Hq.
    + split.
      * intros [= ->]. exists [], paths. by repeat split.
      * intros ([|q' before] & after & Heq & Hp & Hbefore).
        -- by injection Heq as ->.
        -- injection Heq as -> _. inversion Hbefore; congruence.
    + rewrite IH. split.
      * intros (before & after & -> & Hp & Hbefore).
        exists (q :: before), after. repeat split; [done|by constructor].
      * intros ([|q' before] & after & Heq & Hp & Hbefore).
        -- injection Heq as -> _. congruence.
        -- injection Heq as -> ->. exists before, after.
           repeat split; [done|by inversion Hbefore].
Qed.

Lemma firstExisting_None (paths : list gostring) :
  firstExisting Stat_ok paths = None ↔ Forall (fun q => Stat_ok q = false) paths.
Proof.
  induction paths as [|q paths IH]; simpl; [by split; [constructor|]|].
  destruct (Stat_ok q) eqn:Hq.
  - split; [done|]. inversion 1; congruence.
  - rewrite IH. split; [by constructor|by inversion 1].
Qed.

(** X6.  [getDefaultConfigPath] returns the first of the three places
    (the path in [TELEGRAF_CONFIG_PATH], the file under the home
    directory, the system file) that exists, logging it, every place
    before it being absent; it returns an error, with an empty path and
    nothing logged, exactly when none of the three exists. *)
Theorem getDefaultConfigPath_first_existing :
  let candidates :=
    [Getenv (lit "TELEGRAF_CONFIG_PATH"); homefile Getenv; etcfile windows] in
  match getDefaultConfigPath Getenv Stat_ok windows with
  | ((path, None), logged) =>
      (∃ before after, candidates = before ++ path :: after
                       ∧ Stat_ok path = true
                       ∧ Forall (fun q => Stat_ok q = false) before)
      ∧ logged = [lit "I! Using config file: " ++ path]
  | ((path, Some _), logged) =>
      Forall (fun q => Stat_ok q = false) candidates ∧ path = [] ∧ logged = []
  end.
Proof.
  intros candidates. unfold getDefaultConfigPath. fold candidates.
  destruct (firstExisting Stat_ok candidates) as [path|] eqn:Hfirst.
  - split; [by apply firstExisting_Some|done].
  - split; [by apply firstExisting_None|done].
Qed.

End DefaultPathFacts.

(** ** escapeEnv and trimBOM *)

Lemma escapeEnv_cons (c : ascii) (v : gostring) :
  escapeEnv (c :: v) =
  (if isByte c 34 then [byte_of 92; byte_of 34]
   else if isByte c 92 then [byte_of 92; byte_of 92]
   else [c]) ++ escapeEnv v.
Proof. reflexivity. Qed.

Lemma isByte_eq (c : ascii) (z : Z) : isByte c z = true → c = byte_of z.
Proof.
  unfold isByte, byte_of, code. intros Heq%Z.eqb_eq. subst z.
  by rewrite N2Z.id, ascii_N_embedding.
Qed.

(** X7.  [escapeEnv] loses nothing and cannot end the quoted string the
    value is put in: reading the escaped value back, a backslash making
    the next byte literal, gives the value again; no double quote of the
    escaped value is left without a backslash before it; two values with
    the same escaped text are equal. *)
Theorem escapeEnv_round_trip (value : gostring) :
  unescape false (escapeEnv value) = value
  ∧ has_bare_quote false (escapeEnv value) = false
  ∧ (∀ other, escapeEnv value = escapeEnv other → value = other).
Proof.
  assert (∀ v, unescape false (escapeEnv v) = v) as Hback.
  { induction v as [|c v IH]; [done|].
    rewrite escapeEnv_cons.
    destruct (isByte c 34) eqn:Hq.
    - apply isByte_eq in Hq as ->. cbn. by rewrite IH.
    - destruct (isByte c 92) eqn:Hb.
      + apply isByte_eq in Hb as ->. cbn. by rewrite IH.
      + cbn. rewrite Hb. by rewrite IH. }
  split; [apply Hback|]. split.
  - induction value as [|c v IH]; [done|].
    rewrite escapeEnv_cons.
    destruct (isByte c 34) eqn:Hq; [exact IH|].
    destruct (isByte c 92) eqn:Hb; [exact IH|].
    cbn. by rewrite Hb, Hq.
  - intros other Heq. by rewrite <- (Hback value), Heq, Hback.
Qed.

Lemma HasPrefix_app (prefix rest : gostring) : bytes.HasPrefix (prefix ++ rest) prefix = true.
Proof.
  induction prefix as [|c prefix IH]; [done|]. simpl.
  by rewrite Ascii.eqb_refl.
Qed.

Lemma HasPrefix_true (s prefix : gostring) :
  bytes.HasPrefix s prefix = true → s = prefix ++ drop (length prefix) s.
Proof.
  revert s. induction prefix as [|c prefix IH]; intros s; simpl; [done|].
  destruct s as [|x s]; [done|].
  destruct (Ascii.eqb_spec x c) as [->|]; [|done].
  simpl. intros H%IH. by rewrite <- H.
Qed.

(** X8.  [trimBOM] takes one leading byte-order mark away and nothing
    else: a file is its trimmed text, with the mark before it if it began
    with one; a second mark stays. *)
Theorem trimBOM_leading_mark_only (f : gostring) :
  trimBOM (BOM ++ f) = f
  ∧ (f = trimBOM f ∨ f = BOM ++ trimBOM f)
  ∧ (bytes.HasPrefix f BOM = false ↔ trimBOM f = f).
Proof.
  unfold trimBOM, bytes.TrimPrefix. fold BOM.
  split; [by rewrite HasPrefix_app|].
  destruct (bytes.HasPrefix f BOM) eqn:Hp.
  - apply HasPrefix_true in Hp. split; [by right|].
    split; [done|]. intros Heq. rewrite Heq in Hp.
    apply (f_equal length) in Hp. rewrite length_app in Hp. simpl in Hp. lia.
  - split; [by left|done].
Qed.

(** ** parseFile: the substitution *)

Section SubstitutionFacts.
Variable LookupEnv : gostring → option gostring.

Lemma replaceEnvVars_all_unset (env_vars : list gostring) (contents : gostring) :
  (∀ tok, tok ∈ env_vars → LookupEnv (strings.TrimPrefix tok (lit "$")) = None) →
  replaceEnvVars LookupEnv env_vars contents = contents.
Proof.
  unfold replaceEnvVars.
  induction env_vars as [|tok env_vars IH]; intros Hunset; [done|].
  cbn [fold_left]. rewrite (Hunset tok) by (by left).
  apply IH. intros tok' Hin. apply Hunset. by right.
Qed.

Lemma findEnvVars_no_dollar (s : gostring) :
  Forall (fun c => isByte c 36 = false) s → regexp.findEnvVars None s = [].
Proof.
  induction 1 as [|c s Hc _ IH]; [done|]. simpl. by rewrite Hc.
Qed.

(** X9.  When the variable of no token found in the text is set,
    [parseFile] hands the text to the parser as it was read, the
    byte-order mark apart. *)
Theorem substituteEnv_without_set_token (contents : gostring) :
  (∀ tok, tok ∈ regexp.findEnvVars None (trimBOM contents) →
          LookupEnv (strings.TrimPrefix tok (lit "$")) = None) →
  substituteEnv LookupEnv contents = trimBOM contents.
Proof. unfold substituteEnv. apply replaceEnvVars_all_unset. Qed.

Lemma findEnvVars_skip (pre s : gostring) :
  Forall (fun c => isByte c 36 = false) pre →
  regexp.findEnvVars None (pre ++ s) = regexp.findEnvVars None s.
Proof.
  induction 1 as [|c pre Hc _ IH]; [done|]. simpl. by rewrite Hc.
Qed.

Lemma findEnvVars_word (tok name s : gostring) :
  Forall (fun c => regexp.isWord c = true) name →
  regexp.findEnvVars (Some tok) (name ++ s) = regexp.findEnvVars (Some (tok ++ name)) s.
Proof.
  intros Hname. revert tok.
  induction Hname as [|c name Hc _ IH]; intros tok.
  - by rewrite app_nil_r.
  - simpl. rewrite Hc, IH. by rewrite <- app_assoc.
Qed.

Lemma ReplaceFirst_skip (pre s old new : gostring) (d : ascii) :
  Forall (fun c => c ≠ d) pre →
  bytes.ReplaceFirst (pre ++ s) (d :: old) new = pre ++ bytes.ReplaceFirst s (d :: old) new.
Proof.
  induction 1 as [|c pre Hc _ IH]; [done|].
  cbn [app bytes.ReplaceFirst bytes.HasPrefix].
  destruct (Ascii.eqb_spec c d) as [?|_]; [done|].
  cbn [andb]. by rewrite IH.
Qed.

Lemma ReplaceFirst_here (old post new : gostring) :
  bytes.ReplaceFirst (old ++ post) old new = new ++ post.
Proof.
  destruct old as [|d old].
  - by destruct post.
  - assert (bytes.HasPrefix ((d :: old) ++ post) (d :: old) = true) as Hp
      by apply HasPrefix_app.
    cbn [app] in *. cbn [bytes.ReplaceFirst]. rewrite Hp.
    f_equal. exact (drop_app_length (d :: old) post).
Qed.

(** X10.  A text with one token, [$name] between a text without dollar
    sign and a text without dollar sign that does not continue the name,
    comes out with the escaped value in the place of the token when the
    variable [name] is set, and as it was when it is not. *)
Theorem substituteEnv_one_token (contents pre name post : gostring) :
  trimBOM contents = pre ++ "$"%char :: name ++ post →
  Forall (fun c => isByte c 36 = false) pre →
  name ≠ [] → Forall (fun c => regexp.isWord c = true) name →
  Forall (fun c => isByte c 36 = false) post →
  (∀ c rest, post = c :: rest → regexp.isWord c = false) →
  substituteEnv LookupEnv contents =
  match LookupEnv name with
  | Some env_val => pre ++ escapeEnv env_val ++ post
  | None => trimBOM contents
  end.
Proof.
  intros Htext Hpre Hname Hword Hpost Hstop.
  unfold substituteEnv. rewrite Htext.
  assert (regexp.findEnvVars None (pre ++ "$"%char :: name ++ post)
          = ["$"%char :: name]) as ->.
  { rewrite findEnvVars_skip by done.
    cbn [regexp.findEnvVars]. change (isByte "$" 36) with true. cbn iota.
    rewrite findEnvVars_word by done.
    destruct name as [|n name]; [done|]. cbn [app].
    destruct post as [|c post]; [done|].
    cbn [regexp.findEnvVars]. rewrite (Hstop c post eq_refl).
    inversion Hpost as [|? ? Hc Hpost']; subst. rewrite Hc.
    by rewrite findEnvVars_no_dollar. }
  unfold replaceEnvVars. cbn [fold_left].
  change (strings.TrimPrefix ("$"%char :: name) (lit "$")) with name.
  destruct (LookupEnv name) as [env_val|]; [|done].
  rewrite ReplaceFirst_skip.
  - change ("$"%char :: name ++ post) with (("$"%char :: name) ++ post).
    by rewrite ReplaceFirst_here.
  - eapply Forall_impl; [exact Hpre|]. intros c Hc ->. done.
Qed.

End SubstitutionFacts.

Lemma substituteEnv_without_set_token_witness :
  substituteEnv env_FOO (BOM ++ lit "a = $BAR, b = ${BAZ}$QUX")
  = lit "a = $BAR, b = ${BAZ}$QUX".
Proof.
  refine (eq_trans (substituteEnv_without_set_token env_FOO _ _) _); [|reflexivity].
  intros tok Hin.
  assert (regexp.findEnvVars None (trimBOM (BOM ++ lit "a = $BAR, b = ${BAZ}$QUX"))
          = [lit "$BAR"; lit "$QUX"]) as Htoks by reflexivity.
  rewrite Htoks in Hin.
  apply elem_of_cons in Hin as [->|Hin]; [reflexivity|].
  apply elem_of_cons in Hin as [->|Hin]; [reflexivity|].
  by apply elem_of_nil in Hin.
Defined.

Lemma substituteEnv_one_token_witness :
  substituteEnv env_FOO (lit "user = '$FOO'") = lit "user = 'x'".
Proof.
  refine (substituteEnv_one_token env_FOO (lit "user = '$FOO'")
            (lit "user = '") (lit "FOO") (lit "'") _ _ _ _ _ _).
  - reflexivity.
  - repeat constructor.
  - done.
  - repeat constructor.
  - repeat constructor.
  - intros c rest [= <- <-]. reflexivity.
Defined.

(** ** printConfig, PrintInputConfig and PrintOutputConfig *)

Section PrintFacts.

Lemma Split_line (line : gostring) :
  Forall (fun c => c ≠ newline) line → strings_more.Split line newline = [line].
Proof.
  induction 1 as [|c line Hc _ IH]; [done|].
  cbn [strings_more.Split]. rewrite IH.
  by destruct (Ascii.eqb_spec c newline).
Qed.

Lemma Split_line_app (line rest : gostring) :
  Forall (fun c => c ≠ newline) line →
  strings_more.Split (line ++ newline :: rest) newline
  = line :: strings_more.Split rest newline.
Proof.
  induction 1 as [|c line Hc _ IH].
  - cbn [app strings_more.Split]. by rewrite Ascii.eqb_refl.
  - cbn [app strings_more.Split]. rewrite IH.
    by destruct (Ascii.eqb_spec c newline).
Qed.

Lemma Split_Join (lines : list gostring) :
  lines ≠ [] → Forall (Forall (fun c => c ≠ newline)) lines →
  strings_more.Split (strings.Join lines [newline]) newline = lines.
Proof.
  induction lines as [|line lines IH]; [done|]. intros _ Hall.
  inversion Hall as [|? ? Hline Hrest]; subst.
  destruct lines as [|line2 lines].
  - by apply Split_line.
  - change (strings.Join (line :: line2 :: lines) [newline])
      with (line ++ newline :: strings.Join (line2 :: lines) [newline]).
    rewrite Split_line_app by done. by rewrite IH.
Qed.

Lemma printLines_inner (comment : gostring) (n i : nat) (middle : list gostring)
    (last_line : gostring) :
  (0 < i)%nat → (i + length middle + 1 = n)%nat →
  printLines comment n i (middle ++ [last_line])
  = concat (map (fun line => strings_more.TrimRight (comment ++ line) " "%char
                             ++ [newline]) middle)
    ++ [newline].
Proof.
  revert i. induction middle as [|line middle IH]; intros i Hi Hn.
  - cbn [app printLines length] in *.
    replace (Nat.eqb i (n - 1)) with true
      by (symmetry; apply Nat.eqb_eq; lia).
    by rewrite orb_true_r.
  - cbn [app printLines length map concat] in *.
    replace (Nat.eqb i 0) with false by (symmetry; apply Nat.eqb_neq; lia).
    replace (Nat.eqb i (n - 1)) with false by (symmetry; apply Nat.eqb_neq; lia).
    cbn [orb]. rewrite IH by lia. rewrite <- !app_assoc. reflexivity.
Qed.

(** X11.  Of a sample configuration of two lines or more, [printConfig]
    prints an empty line for the first line and for the last line,
    whatever they hold, and between them every other line in its place,
    after the comment mark and without the spaces at its end. *)
Theorem printConfig_drops_first_and_last_line (name op description : gostring)
    (commented : bool) (first_line last_line : gostring) (middle : list gostring) :
  Forall (Forall (fun c => c ≠ newline)) (first_line :: middle ++ [last_line]) →
  printConfig name
    {| Description := description;
       SampleConfig := strings.Join (first_line :: middle ++ [last_line]) [newline] |}
    op commented
  = printed_head name op description commented
    ++ [newline]
    ++ concat (map (fun line =>
                      strings_more.TrimRight
                        ((if commented then lit "# " else []) ++ line) " "%char
                      ++ [newline]) middle)
    ++ [newline].
Proof.
  intros Hlines.
  pose proof (Split_Join (first_line :: middle ++ [last_line]) ltac:(done) Hlines)
    as Hsplit.
  unfold printConfig, printed_head. cbn [Description SampleConfig].
  destruct (strings.Join (first_line :: middle ++ [last_line]) [newline])
    as [|c config] eqn:Hjoin.
  { apply (f_equal length) in Hsplit. cbn in Hsplit.
    rewrite length_app in Hsplit. cbn in Hsplit. lia. }
  cbv zeta. fold newline. rewrite Hsplit.
  cbn [printLines length Nat.eqb orb].
  rewrite printLines_inner by (rewrite ?length_app; cbn [length]; lia).
  change (lit (String "010" EmptyString)) with [newline].
  rewrite <- !app_assoc. reflexivity.
Qed.

(** X12.  A sample configuration of one line is not printed: after the
    head comes only the end of the line. *)
Theorem printConfig_one_line_not_printed (name op description : gostring)
    (commented : bool) (line : gostring) :
  line ≠ [] → Forall (fun c => c ≠ newline) line →
  printConfig name {| Description := description; SampleConfig := line |} op commented
  = printed_head name op description commented ++ [newline].
Proof.
  intros Hne Hline.
  unfold printConfig, printed_head. cbn [Description SampleConfig].
  destruct line as [|c line]; [done|].
  cbv zeta. fold newline. rewrite Split_line by done.
  cbn [printLines length Nat.eqb orb].
  change (lit (String "010" EmptyString)) with [newline].
  rewrite app_nil_r, <- !app_assoc. reflexivity.
Qed.

Context {Input Output InputCreator OutputCreator : Type}.
Variable createInput : InputCreator → Input.
Variable createOutput : OutputCreator → Output.
Variable printerOfInput : Input → printer.
Variable printerOfOutput : Output → printer.

(** X13.  [PrintInputConfig] and [PrintOutputConfig] fail exactly for the
    names that are not registered, and then write nothing; for a name
    registered with [AddInput] or [AddOutput] they print the plugin that
    the creator registered last makes, under the table of its kind, not
    commented out. *)
Theorem PrintConfig_of_registered (Inputs : gmap gostring InputCreator)
    (Outputs : gmap gostring OutputCreator) (name : gostring) :
  ((PrintInputConfig _ _ createInput printerOfInput Inputs name).2 = None
   ↔ is_Some (Inputs !! name))
  ∧ ((PrintOutputConfig _ _ createOutput printerOfOutput Outputs name).2 = None
     ↔ is_Some (Outputs !! name))
  ∧ (Inputs !! name = None →
     (PrintInputConfig _ _ createInput printerOfInput Inputs name).1 = [])
  ∧ (Outputs !! name = None →
     (PrintOutputConfig _ _ createOutput printerOfOutput Outputs name).1 = [])
  ∧ (∀ creator,
       PrintInputConfig _ _ createInput printerOfInput (AddInput name creator Inputs) name
       = (printConfig name (printerOfInput (createInput creator)) (lit "inputs") false,
          None))
  ∧ (∀ creator,
       PrintOutputConfig _ _ createOutput printerOfOutput
         (AddOutput name creator Outputs) name
       = (printConfig name (printerOfOutput (createOutput creator)) (lit "outputs") false,
          None)).
Proof.
  unfold PrintInputConfig, PrintOutputConfig, AddInput, AddOutput.
  repeat split.
  - destruct (Inputs !! name); [by eauto|done].
  - intros [creator ->]. done.
  - destruct (Outputs !! name); [by eauto|done].
  - intros [creator ->]. done.
  - by intros ->.
  - by intros ->.
  - intros creator. by rewrite lookup_insert_eq.
  - intros creator. by rewrite lookup_insert_eq.
Qed.

End PrintFacts.

Lemma printConfig_drops_first_and_last_line_witness :
  printConfig (lit "cpu")
    {| Description := lit "Read CPU";
       SampleConfig := lit "## first" ++ [newline] ++ lit "  percpu = true  "
                       ++ [newline] ++ lit "## last" |}
    (lit "inputs") true
  = [newline] ++ lit "# # Read CPU" ++ [newline] ++ lit "# [[inputs.cpu]]" ++ [newline]
    ++ lit "#   percpu = true" ++ [newline] ++ [newline].
Proof.
  refine (eq_trans (printConfig_drops_first_and_last_line (lit "cpu") (lit "inputs")
            (lit "Read CPU") true (lit "## first") (lit "## last")
            [lit "  percpu = true  "] _) _); [|reflexivity].
  repeat constructor; done.
Defined.

Lemma printConfig_one_line_not_printed_witness :
  printConfig (lit "cpu")
    {| Description := lit "Read CPU"; SampleConfig := lit "percpu = true" |}
    (lit "inputs") false
  = [newline] ++ lit "# Read CPU" ++ [newline] ++ lit "[[inputs.cpu]]" ++ [newline].
Proof.
  refine (eq_trans (printConfig_one_line_not_printed (lit "cpu") (lit "inputs")
            (lit "Read CPU") false (lit "percpu = true") _ _) _); [| |reflexivity].
  - done.
  - repeat constructor; done.
Defined.

(** ** LoadConfig, InputNames and OutputNames *)

Section LoadConfigFacts.
Context {RunningInput RunningOutput Table Node : Type}.
Variable Fields : Table → gmap gostring Node.
Variable asTable : Node → option Table.
Variable UnmarshalTable_tags :
  Table → gmap gostring gostring → gmap gostring gostring * option error.
Variable UnmarshalTable_agent : Table → AgentConfig → AgentConfig * option error.
Variable ErrorText : error → gostring.
Variable ReadFile : gostring → gostring * option error.
Variable toml_Parse : gostring → option Table * option error.
Variable LookupEnv : gostring → option gostring.
Variable Getenv : gostring → gostring.
Variable Stat_ok : gostring → bool.
Variable windows : bool.

Local Abbreviation LoadConfig' :=
  (LoadConfig RunningInput RunningOutput Table Node Fields asTable UnmarshalTable_tags
     UnmarshalTable_agent ErrorText ReadFile toml_Parse LookupEnv Getenv Stat_ok windows).

(** X14.  [LoadConfig] configures no plugin: whatever the file holds and
    whether it fails or not, the inputs, the outputs and the two filter
    lists of the configuration are afterwards what they were, and so are
    [InputNames] and [OutputNames]. *)
Theorem LoadConfig_configures_no_plugin (path : gostring)
    (c : Config RunningInput RunningOutput)
    (InputName : RunningInput → gostring) (OutputName : RunningOutput → gostring) :
  match LoadConfig' path c with
  | Some ((c', _), _) =>
      Inputs _ _ c' = Inputs _ _ c ∧ Outputs _ _ c' = Outputs _ _ c
      ∧ InputFilters _ _ c' = InputFilters _ _ c
      ∧ OutputFilters _ _ c' = OutputFilters _ _ c
      ∧ InputNames _ _ InputName c' = InputNames _ _ InputName c
      ∧ OutputNames _ _ OutputName c' = OutputNames _ _ OutputName c
  | None => True
  end.
Proof.
  unfold LoadConfig, InputNames, OutputNames.
  destruct (match path with
            | [] => getDefaultConfigPath Getenv Stat_ok windows
            | _ => ((path, None), [])
            end) as [[path' [err|]] log0]; [done|].
  destruct (parseFile Table ReadFile toml_Parse LookupEnv path') as [[tbl|] [err|]];
    [done| |done|done].
  destruct (loadTagsTables _ _ _ _ _ _ _ _ _) as [[tags log1] [err|]]; [done|].
  destruct (Fields tbl !! lit "agent") as [val|]; [|done].
  destruct (asTable val) as [subTable|]; [|done].
  destruct (UnmarshalTable_agent subTable _) as [agent [err|]]; done.
Qed.

Lemma loadTagsTables_absent (path : gostring) (tbl : Table) (tableNames : list gostring)
    (tags : gmap gostring gostring) :
  Forall (fun tableName => Fields tbl !! tableName = None) tableNames →
  loadTagsTables Table Node Fields asTable UnmarshalTable_tags ErrorText
    path tbl tableNames tags = ((tags, []), None).
Proof.
  induction 1 as [|tableName tableNames Habsent _ IH]; [done|].
  cbn [loadTagsTables]. by rewrite Habsent.
Qed.

(** X15.  A file that parses and has no table named tags, global_tags or
    agent, a file of plugin tables for instance, is accepted without an
    error or a log line and changes nothing of the configuration. *)
Theorem LoadConfig_ignores_other_tables (path : gostring) (tbl : Table)
    (c : Config RunningInput RunningOutput) :
  path ≠ [] →
  parseFile Table ReadFile toml_Parse LookupEnv path = (Some tbl, None) →
  Fields tbl !! lit "tags" = None →
  Fields tbl !! lit "global_tags" = None →
  Fields tbl !! lit "agent" = None →
  LoadConfig' path c = Some ((c, []), None).
Proof.
  intros Hpath Hparse Htags Hglobal Hagent.
  unfold LoadConfig. destruct path as [|p path]; [done|].
  rewrite Hparse, loadTagsTables_absent by (by repeat constructor).
  rewrite Hagent. by destruct c.
Qed.

End LoadConfigFacts.

Lemma LoadConfig_ignores_other_tables_witness :
  LoadConfig unit unit (gmap gostring unit) unit (fun tbl => tbl) (fun _ => None)
    (fun _ tags => (tags, None)) (fun _ agent => (agent, None)) (fun _ => [])
    (fun _ => (lit "[[inputs.cpu]]", None))
    (fun _ => (Some {[ lit "inputs" := () ]}, None))
    (fun _ => None) (fun _ => []) (fun _ => false) false
    (lit "/etc/telegraf/telegraf.conf") (NewConfig unit unit)
  = Some ((NewConfig unit unit, []), None).
Proof.
  apply (LoadConfig_ignores_other_tables (fun tbl => tbl) (fun _ => None)
           (fun _ tags => (tags, None)) (fun _ agent => (agent, None)) (fun _ => [])
           (fun _ => (lit "[[inputs.cpu]]", None))
           (fun _ => (Some {[ lit "inputs" := () ]}, None))
           (fun _ => None) (fun _ => []) (fun _ => false) false
           (lit "/etc/telegraf/telegraf.conf") {[ lit "inputs" := () ]}).
  - done.
  - reflexivity.
  - reflexivity.
  - reflexivity.
  - reflexivity.
Defined.

(** ** Duration.UnmarshalTOML: quotes and whole seconds *)

Section DurationMore.

Lemma trimLeftByte_all (c : ascii) (run : gostring) :
  Forall (fun x => x = c) run → bytes.trimLeftByte run c = [].
Proof.
  intros Hrun. rewrite <- (app_nil_r run). by rewrite trimLeftByte_run.
Qed.

Lemma trimLeftByte_rev_app_run (c : ascii) (s run : gostring) :
  Forall (fun x => x = c) run →
  bytes.trimLeftByte (rev (bytes.trimLeftByte (s ++ run) c)) c
  = bytes.trimLeftByte (rev (bytes.trimLeftByte s c)) c.
Proof.
  intros Hrun. induction s as [|x s IH].
  - cbn [app]. by rewrite (trimLeftByte_all c run Hrun).
  - cbn [app bytes.trimLeftByte].
    destruct (Ascii.eqb_spec x c) as [->|Hx]; [exact IH|].
    change (x :: s ++ run) with ((x :: s) ++ run).
    rewrite rev_app_distr. rewrite trimLeftByte_run by (by apply Forall_rev).
    done.
Qed.

Lemma Trim_runs (c : ascii) (run1 b run2 : gostring) :
  Forall (fun x => x = c) run1 → Forall (fun x => x = c) run2 →
  bytes.Trim (run1 ++ b ++ run2) c = bytes.Trim b c.
Proof.
  intros H1 H2. unfold bytes.Trim, bytes.trimRightByte.
  rewrite !rev_app_distr, <- app_assoc.
  rewrite trimLeftByte_run by (by apply Forall_rev).
  by rewrite trimLeftByte_rev_app_run by (by apply Forall_rev).
Qed.

(** X16.  [UnmarshalTOML] does not see the single quotes at the two ends
    of the value, however many they are: the value between them is read
    as if it stood alone. *)
Theorem UnmarshalTOML_ignores_single_quotes (d : Duration) (b : gostring) (n m : nat) :
  UnmarshalTOML d (repeat "'"%char n ++ b ++ repeat "'"%char m) = UnmarshalTOML d b.
Proof.
  unfold UnmarshalTOML.
  assert (∀ k, Forall (fun x => x = "'"%char) (repeat "'"%char k)) as Hrun
    by (induction k; by constructor).
  by rewrite Trim_runs.
Qed.

Lemma isDigit_code (c : ascii) : isDigit c = true → 48 <= code c <= 57.
Proof. unfold isDigit, between. lia. Qed.

Lemma decimal_fold_ge (digits : gostring) (n : Z) :
  Forall (fun c => isDigit c = true) digits → 0 <= n →
  n <= fold_left (fun n c => n * 10 + (code c - 48)) digits n.
Proof.
  intros Hdigits. revert n.
  induction Hdigits as [|c digits Hc%isDigit_code _ IH]; intros n Hn; cbn [fold_left].
  - lia.
  - etransitivity; [|apply IH]; lia.
Qed.

Lemma parseUintLoop_digits (s0 digits : gostring) (n : Z) :
  Forall (fun c => isDigit c = true) digits → 0 <= n →
  fold_left (fun n c => n * 10 + (code c - 48)) digits n < 2 ^ 63 →
  strconv.parseUintLoop s0 n digits
  = (fold_left (fun n c => n * 10 + (code c - 48)) digits n, None).
Proof.
  intros Hdigits. revert n.
  induction Hdigits as [|c digits Hc Hrest IH]; intros n Hn Hsmall;
    cbn [fold_left strconv.parseUintLoop] in *; [done|].
  rewrite Hc. cbn [negb].
  pose proof (isDigit_code c Hc) as Hcode.
  pose proof (decimal_fold_ge digits (n * 10 + (code c - 48)) Hrest ltac:(lia)) as Hge.
  destruct (Z.geb_spec n ((2 ^ 64 - 1) / 10 + 1)) as [Hcut|_].
  { change ((2 ^ 64 - 1) / 10 + 1) with 1844674407370955162 in Hcut. lia. }
  destruct (Z.gtb_spec (n * 10 + (code c - 48)) (2 ^ 64 - 1)) as [Hbig|_]; [lia|].
  apply IH; lia.
Qed.

Lemma leadingInt_digits (digits : gostring) (x : Z) :
  Forall (fun c => isDigit c = true) digits →
  time.leadingInt x digits = None ∨ ∃ v, time.leadingInt x digits = Some (v, []).
Proof.
  intros Hdigits. revert x.
  induction Hdigits as [|c digits Hc _ IH]; intros x; cbn [time.leadingInt].
  - right. by eexists.
  - rewrite Hc. destruct (x >? 2 ^ 63 / 10); [by left|].
    destruct (x * 10 + code c - 48 >? 2 ^ 63); [by left|]. apply IH.
Qed.

Lemma parseGroups_digits (orig digits : gostring) :
  digits ≠ [] → Forall (fun c => isDigit c = true) digits →
  ∃ e, time.parseGroups (length digits) orig 0 digits = inl e.
Proof.
  intros Hne Hdigits.
  destruct digits as [|c digits]; [done|].
  pose proof (leadingInt_digits (c :: digits) 0 Hdigits) as Hlead.
  inversion Hdigits as [|? ? Hc _]; subst.
  cbn [length time.parseGroups]. rewrite Hc, orb_true_r. cbn [negb].
  destruct Hlead as [->|[v ->]]; [by eexists|].
  cbn. by eexists.
Qed.

Lemma ParseDuration_digits (sg : sign) (digits : gostring) :
  digits ≠ [] → Forall (fun c => isDigit c = true) digits →
  time.ParseDuration (sign_bytes sg ++ digits) = (0, None)
  ∧ decimal_value digits = 0
  ∨ (time.ParseDuration (sign_bytes sg ++ digits)).2 ≠ None.
Proof.
  intros Hne Hdigits.
  assert (∀ neg orig,
            (if decide (digits = lit "0") then (0, None)
             else match digits with
                  | [] => (0, Some (time.invalid orig))
                  | _ => match time.parseGroups (length digits) orig 0 digits with
                         | inl e => (0, Some e)
                         | inr d =>
                             if neg : bool then (wrap_int64 (- wrap_int64 d), None)
                             else if d >? 2 ^ 63 - 1 then (0, Some (time.invalid orig))
                             else (d, None)
                         end
                  end) = (0, None) ∧ decimal_value digits = 0
            ∨ (if decide (digits = lit "0") then (0, None)
               else match digits with
                    | [] => (0, Some (time.invalid orig))
                    | _ => match time.parseGroups (length digits) orig 0 digits with
                           | inl e => (0, Some e)
                           | inr d =>
                               if neg : bool then (wrap_int64 (- wrap_int64 d), None)
                               else if d >? 2 ^ 63 - 1 then (0, Some (time.invalid orig))
                               else (d, None)
                           end
                    end).2 ≠ None) as Hbody.
  { intros neg orig. destruct (decide (digits = lit "0")) as [->|_]; [by left|].
    right. destruct (parseGroups_digits orig digits Hne Hdigits) as [e ->].
    by destruct digits. }
  destruct digits as [|c digits]; [done|].
  inversion Hdigits as [|? ? Hc%isDigit_code _]; subst.
  unfold time.ParseDuration.
  destruct sg; cbn [sign_bytes app lit list_ascii_of_string].
  - replace (isByte c 45 || isByte c 43) with false
      by (unfold isByte; lia).
    exact (Hbody false (c :: digits)).
  - exact (Hbody false ("+"%char :: c :: digits)).
  - exact (Hbody true ("-"%char :: c :: digits)).
Qed.

Lemma Unquote_not_a_quote (q : ascii) (rest : gostring) :
  isByte q 96 = false → isByte q 34 = false → isByte q 39 = false →
  (strconv.Unquote (q :: rest)).2 ≠ None.
Proof.
  intros H96 H34 H39. unfold strconv.Unquote.
  destruct (rev rest) as [|last_byte rbody]; [done|].
  destruct (Ascii.eqb q last_byte); [|done].
  cbn [negb]. by rewrite H96, H34, H39.
Qed.

Lemma ParseInt10_digits (sg : sign) (digits : gostring) :
  digits ≠ [] → Forall (fun c => isDigit c = true) digits →
  decimal_value digits < 2 ^ 63 →
  strconv.ParseInt10 (sign_bytes sg ++ digits) = (signed sg (decimal_value digits), None).
Proof.
  intros Hne Hdigits Hsmall.
  assert (strconv.ParseUint10 digits = (decimal_value digits, None)) as Huint.
  { unfold strconv.ParseUint10. destruct digits as [|c digits]; [done|].
    by apply parseUintLoop_digits. }
  pose proof (decimal_fold_ge digits 0 Hdigits ltac:(lia)) as Hge.
  fold (decimal_value digits) in Hge.
  destruct digits as [|c digits]; [done|].
  inversion Hdigits as [|? ? Hc%isDigit_code _]; subst.
  unfold strconv.ParseInt10.
  destruct sg; cbn [sign_bytes app lit list_ascii_of_string signed].
  - replace (isByte c 43) with false by (unfold isByte; lia).
    replace (isByte c 45) with false by (unfold isByte; lia).
    cbn [orb]. rewrite Huint. cbn [negb andb].
    destruct (Z.geb_spec (decimal_value (c :: digits)) (2 ^ 63)); [lia|done].
  - change (isByte "+" 43) with true. change (isByte "+" 45) with false.
    cbn [orb]. rewrite Huint. cbn [negb andb].
    destruct (Z.geb_spec (decimal_value (c :: digits)) (2 ^ 63)); [lia|done].
  - change (isByte "-" 43) with false. change (isByte "-" 45) with true.
    cbn [orb]. rewrite Huint. cbn [negb andb].
    destruct (Z.gtb_spec (decimal_value (c :: digits)) (2 ^ 63)); [lia|done].
Qed.

Lemma Trim_no_cut (c : ascii) (s : gostring) :
  Forall (fun x => x ≠ c) s → bytes.Trim s c = s.
Proof.
  intros Hs. unfold bytes.Trim, bytes.trimRightByte.
  rewrite (trimLeftByte_stop c (rev s)) by (by apply Forall_rev).
  rewrite rev_involutive. by apply trimLeftByte_stop.
Qed.

(** X17.  A value of decimal digits, with or without a sign before them,
    is a number of seconds: [UnmarshalTOML] sets the duration to that
    many seconds and returns no error; up to 9223372036 seconds the
    duration is the exact product, past it the 64 bits wrap around. *)
Theorem UnmarshalTOML_decimal_seconds (d : Duration) (sg : sign) (digits : gostring) :
  digits ≠ [] → Forall (fun c => isDigit c = true) digits →
  decimal_value digits < 2 ^ 63 →
  UnmarshalTOML d (sign_bytes sg ++ digits)
  = ({| Duration_ := wrap_int64 (time.Second * signed sg (decimal_value digits)) |}, None)
  ∧ (decimal_value digits <= 9223372036 →
     wrap_int64 (time.Second * signed sg (decimal_value digits))
     = 1000000000 * signed sg (decimal_value digits)).
Proof.
  intros Hne Hdigits Hsmall. split.
  - unfold UnmarshalTOML.
    rewrite Trim_no_cut.
    2:{ apply Forall_app. split.
        - destruct sg; repeat constructor; done.
        - eapply Forall_impl; [exact Hdigits|].
          intros c Hc%isDigit_code ->. change (code "'") with 39 in Hc. lia. }
    destruct (ParseDuration_digits sg digits Hne Hdigits) as [[-> Hzero]|Herr].
    { rewrite Hzero. by destruct sg. }
    destruct (time.ParseDuration (sign_bytes sg ++ digits)) as [dur [e|]]; [|done].
    assert ((strconv.Unquote (sign_bytes sg ++ digits)).2 ≠ None) as Hquote.
    { destruct digits as [|c digits]; [done|].
      inversion Hdigits as [|? ? Hc%isDigit_code _]; subst.
      destruct sg; cbn [sign_bytes app lit list_ascii_of_string];
        apply Unquote_not_a_quote; try reflexivity; unfold isByte; lia. }
    destruct (strconv.Unquote (sign_bytes sg ++ digits)) as [uq [e'|]]; [|done].
    by rewrite ParseInt10_digits.
  - intros Hfit.
    pose proof (decimal_fold_ge digits 0 Hdigits ltac:(lia)) as Hge.
    fold (decimal_value digits) in Hge.
    unfold wrap_int64. change time.Second with 1000000000.
    change (2 ^ 63) with 9223372036854775808.
    change (2 ^ 64) with 18446744073709551616.
    destruct sg; cbn [signed]; rewrite Z.mod_small; lia.
Qed.

End DurationMore.

Lemma UnmarshalTOML_decimal_seconds_witness :
  UnmarshalTOML {| Duration_ := 7 |} (lit "-90")
  = ({| Duration_ := -90000000000 |}, None).
Proof.
  refine (eq_trans (proj1 (UnmarshalTOML_decimal_seconds {| Duration_ := 7 |} Minus
                             (lit "90") _ _ _)) _).
  - done.
  - repeat constructor.
  - reflexivity.
  - reflexivity.
Defined.

(** ** ASCII text *)

Section ASCIIFacts.

Lemma DecodeRune_ASCII (c : ascii) (p : gostring) :
  isASCII c = true → utf8.DecodeRune (c :: p) = (code c, 1%nat).
Proof. unfold isASCII, utf8.DecodeRune. by intros ->. Qed.

Lemma IsSpace_ASCII (c : ascii) :
  isASCII c = true → unicode.IsSpace (code c) = isSpaceByte c.
Proof.
  unfold isASCII, unicode.IsSpace, isSpaceByte, between, isByte. intros Hc%Z.ltb_lt.
  replace (code c <=? 255) with true by (symmetry; apply Z.leb_le; lia).
  replace (code c =? 133) with false by (symmetry; apply Z.eqb_neq; lia).
  replace (code c =? 160) with false by (symmetry; apply Z.eqb_neq; lia).
  by rewrite !orb_false_r.
Qed.

Lemma runes_ASCII (s : gostring) :
  Forall (fun c => isASCII c = true) s →
  utf8.runes 0 s = map (fun c => (code c, [c])) s.
Proof.
  induction 1 as [|c s Hc _ IH]; [done|].
  cbn [utf8.runes map]. rewrite DecodeRune_ASCII by done.
  cbn [take Nat.pred]. by rewrite IH.
Qed.

Lemma ValidString_ASCII (s : gostring) :
  Forall (fun c => isASCII c = true) s → utf8.ValidString s = true.
Proof.
  intros Hs. unfold utf8.ValidString. rewrite runes_ASCII by done.
  induction Hs as [|c s Hc _ IH]; [done|].
  cbn [map forallb fst snd]. rewrite IH, andb_true_r.
  unfold isASCII in Hc. apply Z.ltb_lt in Hc.
  replace (code c =? utf8.RuneError) with false; [done|].
  symmetry. apply Z.eqb_neq. unfold utf8.RuneError. lia.
Qed.

End ASCIIFacts.

(** ** Duration.UnmarshalTOML: quoted literals *)

Section DurationQuoted.

Lemma plain_byte_parts (c : ascii) :
  plain_byte c = true →
  isASCII c = true ∧ isByte c 34 = false ∧ isByte c 39 = false
  ∧ isByte c 92 = false ∧ isByte c 10 = false.
Proof.
  unfold plain_byte. intros [Ha Hn%negb_true_iff]%andb_true_iff.
  apply orb_false_iff in Hn as [Hn H10].
  apply orb_false_iff in Hn as [Hn H92].
  apply orb_false_iff in Hn as [H34 H39]. done.
Qed.

Lemma contains_plain (body : gostring) (z : Z) :
  Forall (fun c => isByte c z = false) body → strconv.contains body z = false.
Proof.
  unfold strconv.contains. induction 1 as [|c body Hc _ IH]; [done|].
  cbn [existsb]. by rewrite Hc, IH.
Qed.

Lemma Unquote_plain (body : gostring) :
  Forall (fun c => plain_byte c = true) body →
  strconv.Unquote (byte_of 34 :: body ++ [byte_of 34]) = (body, None).
Proof.
  intros Hbody. unfold strconv.Unquote.
  rewrite rev_app_distr. cbn [rev app]. rewrite Ascii.eqb_refl. cbn [negb].
  rewrite rev_involutive.
  change (isByte (byte_of 34) 96) with false.
  change (isByte (byte_of 34) 34) with true.
  cbn [negb andb].
  rewrite (contains_plain body 10), (contains_plain body 92);
    try (eapply Forall_impl; [exact Hbody|]; intros c Hc%plain_byte_parts; tauto).
  replace (existsb (Ascii.eqb (byte_of 34)) body) with false.
  2:{ symmetry. induction Hbody as [|c body Hc%plain_byte_parts _ IH]; [done|].
      cbn [existsb]. rewrite IH, orb_false_r.
      destruct (Ascii.eqb_spec (byte_of 34) c) as [<-|_]; [|done].
      destruct Hc as (_ & H34 & _). discriminate H34. }
  rewrite ValidString_ASCII; [done|].
  eapply Forall_impl; [exact Hbody|]. intros c Hc%plain_byte_parts. tauto.
Qed.

(** X18.  A duration literal between double quotes is read as the
    literal: when the bytes between the quotes are plain ASCII that
    [time.ParseDuration] accepts, [UnmarshalTOML] sets that duration and
    returns no error. *)
Theorem UnmarshalTOML_quoted_literal (d : Duration) (body : gostring) :
  Forall (fun c => plain_byte c = true) body →
  (time.ParseDuration body).2 = None →
  UnmarshalTOML d (byte_of 34 :: body ++ [byte_of 34])
  = ({| Duration_ := (time.ParseDuration body).1 |}, None).
Proof.
  intros Hbody Hlit.
  assert (body ≠ []) as Hne by (by intros ->).
  unfold UnmarshalTOML.
  rewrite Trim_no_cut.
  2:{ constructor; [done|]. apply Forall_app. split; [|by repeat constructor].
      eapply Forall_impl; [exact Hbody|].
      intros c Hc%plain_byte_parts ->. destruct Hc as (_ & _ & H39 & _).
      discriminate H39. }
  assert (time.ParseDuration (byte_of 34 :: body ++ [byte_of 34])
          = (0, Some (time.invalid (byte_of 34 :: body ++ [byte_of 34])))) as ->.
  { unfold time.ParseDuration.
    change (isByte (byte_of 34) 45 || isByte (byte_of 34) 43) with false. cbv iota.
    destruct (decide (byte_of 34 :: body ++ [byte_of 34] = lit "0")) as [Heq|_];
      [discriminate Heq|].
    reflexivity. }
  rewrite Unquote_plain by done.
  destruct body as [|c body]; [done|]. cbn [length Nat.ltb Nat.leb].
  destruct (time.ParseDuration (c :: body)) as [dur [e|]]; [done|done].
Qed.

End DurationQuoted.

Lemma UnmarshalTOML_quoted_literal_witness :
  UnmarshalTOML {| Duration_ := 7 |} (byte_of 34 :: lit "1m30s" ++ [byte_of 34])
  = ({| Duration_ := 90000000000 |}, None).
Proof.
  refine (eq_trans (UnmarshalTOML_quoted_literal {| Duration_ := 7 |} (lit "1m30s") _ _) _).
  - repeat constructor.
  - reflexivity.
  - reflexivity.
Defined.

(** ** ValueParser.Parse: the last field *)

Section ParseLastField.
Context {Metric Time : Type}.
Variable New : gostring → gmap gostring gostring → gmap gostring value → Time
               → Metric * option error.
Variable now : Time.

Lemma token_byte_parts (c : ascii) :
  token_byte c = true → isASCII c = true ∧ isSpaceByte c = false ∧ c ≠ NUL.
Proof.
  unfold token_byte.
  intros [[Ha Hs%negb_true_iff]%andb_true_iff Hn%negb_true_iff]%andb_true_iff.
  repeat split; [done|done|]. intros ->. discriminate Hn.
Qed.

Lemma isSpaceByte_parts (c : ascii) :
  isSpaceByte c = true → isASCII c = true ∧ c ≠ NUL.
Proof.
  intros Hc. split.
  - unfold isSpaceByte, between, isByte in Hc. unfold isASCII. lia.
  - intros ->. discriminate Hc.
Qed.

Lemma trimLeftByte_before (c sp : ascii) (before tok : gostring) :
  sp ≠ c →
  bytes.trimLeftByte (before ++ sp :: tok) c = bytes.trimLeftByte before c ++ sp :: tok.
Proof.
  intros Hsp. induction before as [|x before IH]; cbn [app bytes.trimLeftByte].
  - by destruct (Ascii.eqb_spec sp c).
  - by destruct (Ascii.eqb_spec x c).
Qed.

Lemma trimLeftByte_Forall (P : ascii → Prop) (c : ascii) (s : gostring) :
  Forall P s → Forall P (bytes.trimLeftByte s c).
Proof.
  induction 1 as [|x s Hx Hs IH]; cbn [bytes.trimLeftByte]; [done|].
  destruct (Ascii.eqb x c); [done|by constructor].
Qed.

Lemma trimRightByte_last (c x : ascii) (s : gostring) :
  x ≠ c → bytes.trimRightByte (s ++ [x]) c = s ++ [x].
Proof.
  intros Hx. unfold bytes.trimRightByte. rewrite rev_app_distr.
  cbn [rev app bytes.trimLeftByte].
  destruct (Ascii.eqb_spec x c); [done|].
  change (x :: rev s) with (rev [x] ++ rev s).
  by rewrite <- rev_app_distr, rev_involutive.
Qed.

Lemma trimLeftFunc_token (fuel : nat) (t : ascii) (tok : gostring) :
  token_byte t = true →
  bytes.trimLeftFunc fuel unicode.IsSpace (t :: tok) = t :: tok.
Proof.
  intros (Ha & Hs & _)%token_byte_parts. destruct fuel; [done|].
  cbn [bytes.trimLeftFunc]. rewrite DecodeRune_ASCII by done.
  by rewrite IsSpace_ASCII, Hs.
Qed.

Lemma trimLeftFunc_before (before : gostring) (sp t : ascii) (tok : gostring)
    (fuel : nat) :
  Forall (fun c => isASCII c = true) before → isSpaceByte sp = true →
  token_byte t = true → (length (before ++ sp :: t :: tok) ≤ fuel)%nat →
  bytes.trimLeftFunc fuel unicode.IsSpace (before ++ sp :: t :: tok) = t :: tok
  ∨ ∃ before', Forall (fun c => isASCII c = true) before'
      ∧ bytes.trimLeftFunc fuel unicode.IsSpace (before ++ sp :: t :: tok)
        = before' ++ sp :: t :: tok.
Proof.
  intros Hbefore Hsp Ht. revert fuel.
  induction Hbefore as [|c before Hc Hbefore IH]; intros fuel Hfuel;
    cbn [app length] in *; (destruct fuel as [|fuel]; [lia|]);
    cbn [bytes.trimLeftFunc].
  - destruct (isSpaceByte_parts sp Hsp) as [Ha _].
    rewrite DecodeRune_ASCII by done. rewrite IsSpace_ASCII, Hsp by done.
    cbn [drop]. left. by apply trimLeftFunc_token.
  - rewrite DecodeRune_ASCII by done. rewrite IsSpace_ASCII by done.
    destruct (isSpaceByte c) eqn:Hspace.
    + cbn [drop]. apply IH. lia.
    + right. exists (c :: before). split; [by constructor|done].
Qed.

Lemma TrimRightFunc_token (s : gostring) (t : ascii) :
  token_byte t = true →
  bytes.TrimRightFunc (s ++ [t]) unicode.IsSpace = s ++ [t].
Proof.
  intros (Ha & Hs & _)%token_byte_parts. unfold bytes.TrimRightFunc.
  rewrite <- (rev_involutive (s ++ [t])) at 3.
  f_equal. rewrite rev_app_distr, length_app. cbn [rev app length].
  rewrite Nat.add_1_r. cbn [bytes.trimRightFunc_rev utf8.DecodeLastRune_rev].
  unfold isASCII in Ha. rewrite Ha.
  fold (isASCII t) in Ha. by rewrite IsSpace_ASCII, Hs.
Qed.

Lemma fieldsRunes_token (cur tok : gostring) :
  Forall (fun c => token_byte c = true) tok →
  strings.fieldsRunes cur (map (fun c => (code c, [c])) tok)
  = match cur ++ tok with [] => [] | field => [field] end.
Proof.
  intros Htok. revert cur.
  induction Htok as [|c tok (Ha & Hs & _)%token_byte_parts _ IH]; intros cur;
    cbn [map strings.fieldsRunes].
  - rewrite app_nil_r. by destruct cur.
  - rewrite IsSpace_ASCII, Hs by done. rewrite IH. by rewrite <- app_assoc.
Qed.

Lemma fieldsRunes_last (cur before : gostring) (sp : ascii) (tok : gostring) :
  Forall (fun c => isASCII c = true) before → isSpaceByte sp = true →
  tok ≠ [] → Forall (fun c => token_byte c = true) tok →
  last (strings.fieldsRunes cur
          (map (fun c => (code c, [c])) (before ++ sp :: tok)))
  = Some tok.
Proof.
  intros Hbefore Hsp Hne Htok. revert cur.
  induction Hbefore as [|c before Hc _ IH]; intros cur;
    cbn [app map strings.fieldsRunes].
  - destruct (isSpaceByte_parts sp Hsp) as [Ha _].
    rewrite IsSpace_ASCII, Hsp by done.
    rewrite (fieldsRunes_token [] tok Htok). cbn [app].
    destruct tok as [|t tok]; [done|]. by destruct cur.
  - rewrite IsSpace_ASCII by done.
    destruct (isSpaceByte c); [|apply IH].
    specialize (IH []).
    destruct cur as [|x cur]; [exact IH|].
    destruct (strings.fieldsRunes [] _) as [|field fields]; [done|].
    exact IH.
Qed.

Lemma last_Fields_token (t : ascii) (tok : gostring) :
  Forall (fun c => token_byte c = true) (t :: tok) →
  last (strings.Fields (bytes.TrimSpace (bytes.Trim (t :: tok) (byte_of 0))))
  = Some (t :: tok).
Proof.
  intros Htok.
  assert (Forall (fun c => isASCII c = true) (t :: tok)) as Hascii
    by (eapply Forall_impl; [exact Htok|]; intros c Hc%token_byte_parts; tauto).
  rewrite Trim_no_cut
    by (eapply Forall_impl; [exact Htok|]; intros c Hc%token_byte_parts; tauto).
  assert (bytes.TrimSpace (t :: tok) = t :: tok) as ->.
  { unfold bytes.TrimSpace, bytes.TrimFunc, bytes.TrimLeftFunc.
    rewrite trimLeftFunc_token by (by inversion Htok).
    destruct (exists_last (l := t :: tok) ltac:(done)) as (s & x & Heq).
    rewrite Heq in *. apply TrimRightFunc_token.
    apply Forall_app in Htok as [_ Hx]. by inversion Hx. }
  unfold strings.Fields. rewrite runes_ASCII by done.
  by rewrite fieldsRunes_token.
Qed.

Lemma last_Fields_before (before : gostring) (sp t : ascii) (tok : gostring) :
  Forall (fun c => isASCII c = true) before → isSpaceByte sp = true →
  Forall (fun c => token_byte c = true) (t :: tok) →
  last (strings.Fields
          (bytes.TrimSpace (bytes.Trim (before ++ sp :: t :: tok) (byte_of 0))))
  = Some (t :: tok).
Proof.
  intros Hbefore Hsp Htok.
  destruct (isSpaceByte_parts sp Hsp) as [Hsa Hsn].
  assert (Forall (fun c => isASCII c = true) (t :: tok)) as Hascii
    by (eapply Forall_impl; [exact Htok|]; intros c Hc%token_byte_parts; tauto).
  destruct (exists_last (l := t :: tok) ltac:(done)) as (front & x & Heq).
  assert (token_byte x = true) as Hx.
  { rewrite Heq in Htok. apply Forall_app in Htok as [_ Hx]. by inversion Hx. }
  assert (bytes.Trim (before ++ sp :: t :: tok) (byte_of 0)
          = bytes.trimLeftByte before (byte_of 0) ++ sp :: t :: tok) as ->.
  { unfold bytes.Trim. rewrite Heq.
    replace (before ++ sp :: front ++ [x]) with ((before ++ sp :: front) ++ [x])
      by (by rewrite <- app_assoc).
    rewrite trimRightByte_last by (apply token_byte_parts in Hx; tauto).
    rewrite <- app_assoc. cbn [app]. by apply trimLeftByte_before. }
  pose proof (trimLeftByte_Forall _ (byte_of 0) before Hbefore) as Hbefore1.
  set (before1 := bytes.trimLeftByte before (byte_of 0)) in *.
  assert (∀ s, (s = t :: tok ∨ ∃ before', Forall (fun c => isASCII c = true) before'
                                    ∧ s = before' ++ sp :: t :: tok) →
               last (strings.Fields (bytes.TrimRightFunc s unicode.IsSpace))
               = Some (t :: tok)) as Hrest.
  { intros s Hs.
    assert (bytes.TrimRightFunc s unicode.IsSpace = s) as ->.
    { destruct Hs as [->|(before' & _ & ->)].
      - rewrite Heq. by apply TrimRightFunc_token.
      - rewrite Heq.
        replace (before' ++ sp :: front ++ [x]) with ((before' ++ sp :: front) ++ [x])
          by (by rewrite <- app_assoc).
        by apply TrimRightFunc_token. }
    unfold strings.Fields.
    destruct Hs as [->|(before' & Hb' & ->)].
    - rewrite runes_ASCII by done. by rewrite fieldsRunes_token.
    - rewrite runes_ASCII.
      + by apply fieldsRunes_last.
      + apply Forall_app. split; [done|]. by constructor. }
  unfold bytes.TrimSpace, bytes.TrimFunc, bytes.TrimLeftFunc.
  apply Hrest. inversion Htok; subst.
  by apply trimLeftFunc_before.
Qed.

(** X19.  Of a buffer of several fields, [Parse] reads only the last:
    for every data type other than string, what stands before the white
    space that precedes the last field, NUL bytes and other fields alike,
    changes nothing of the result. *)
Theorem Parse_reads_last_field_only (v : ValueParser) (before : gostring) (sp : ascii)
    (tok : gostring) :
  isType v ["string"]%string = false →
  Forall (fun c => isASCII c = true) before → isSpaceByte sp = true →
  tok ≠ [] → Forall (fun c => token_byte c = true) tok →
  Parse Metric Time New now v (before ++ sp :: tok) = Parse Metric Time New now v tok
  ∧ Parse Metric Time New now v tok = makeMetric Metric Time New now v (convert v tok).
Proof.
  intros Hty Hbefore Hsp Hne Htok.
  destruct tok as [|t tok]; [done|].
  unfold Parse. rewrite Hty. cbn [negb].
  rewrite last_Fields_before by done.
  by rewrite last_Fields_token.
Qed.

End ParseLastField.

Lemma Parse_reads_last_field_only_witness :
  Parse plain_metric unit plain_New () (parser_of_type "int")
    (byte_of 0 :: lit "load: 1 2" ++ byte_of 9 :: lit "42")
  = ([(lit "sensor", {[ lit "value" := VInt 42 ]})], None).
Proof.
  refine (eq_trans (proj1 (Parse_reads_last_field_only plain_New () (parser_of_type "int")
                             (byte_of 0 :: lit "load: 1 2") (byte_of 9) (lit "42")
                             _ _ _ _ _)) _).
  - reflexivity.
  - repeat constructor.
  - reflexivity.
  - done.
  - repeat constructor.
  - reflexivity.
Defined.

(** ** ValueParser.Parse: integers *)

Section ParseInteger.
Context {Metric Time : Type}.
Variable New : gostring → gmap gostring gostring → gmap gostring value → Time
               → Metric * option error.
Variable now : Time.

Lemma isDigit_token (c : ascii) : isDigit c = true → token_byte c = true.
Proof.
  intros Hc%isDigit_code.
  unfold token_byte, isASCII, isSpaceByte, between, isByte.
  repeat (apply andb_true_intro; split); try apply negb_true_iff; lia.
Qed.

(** X20.  With the data type int, integer or none, a value of decimal
    digits, with or without a sign, makes one metric of the parser's name
    and default tags whose only field, value, is that integer; [Parse]
    fails only if [New] does. *)
Theorem Parse_decimal_integer (v : ValueParser) (sg : sign) (digits : gostring) :
  isType v [""; "int"; "integer"]%string = true →
  digits ≠ [] → Forall (fun c => isDigit c = true) digits →
  decimal_value digits < 2 ^ 63 →
  Parse Metric Time New now v (sign_bytes sg ++ digits)
  = metric_result
      (New (MetricName v) (DefaultTags v)
         {[ lit "value" := VInt (signed sg (decimal_value digits)) ]} now).
Proof.
  intros Hty Hne Hdigits Hsmall.
  assert (isType v ["string"]%string = false) as Hstring.
  { unfold isType in *. cbn [existsb] in *.
    destruct (decide (DataType v = lit "string")) as [Heq|_]; [|done].
    rewrite Heq in Hty. discriminate Hty. }
  assert (Forall (fun c => token_byte c = true) (sign_bytes sg ++ digits)) as Htok.
  { apply Forall_app. split.
    - destruct sg; repeat constructor.
    - eapply Forall_impl; [exact Hdigits|]. apply isDigit_token. }
  pose proof (ParseInt10_digits sg digits Hne Hdigits Hsmall) as Hint.
  unfold Parse. rewrite Hstring. cbn [negb].
  destruct (sign_bytes sg ++ digits) as [|t tok] eqn:Heq.
  { destruct sg, digits; done. }
  rewrite last_Fields_token by done.
  unfold convert, strconv.Atoi. rewrite Hty, Hint.
  unfold makeMetric, metric_result.
  by destruct (New _ _ _ _) as [metric [err|]].
Qed.

End ParseInteger.

Lemma Parse_decimal_integer_witness :
  Parse plain_metric unit plain_New () (parser_of_type "integer") (lit "-17")
  = ([(lit "sensor", {[ lit "value" := VInt (-17) ]})], None).
Proof.
  refine (eq_trans (Parse_decimal_integer plain_New () (parser_of_type "integer")
                      Minus (lit "17") _ _ _ _) _).
  - reflexivity.
  - done.
  - repeat constructor.
  - reflexivity.
  - reflexivity.
Defined.
